(** * SumGame: the grid state machine of [src/App.tsx]

    A shallow embedding of the game logic of the React component [App]:
    the grid updaters ([addNewRow], [removeBlocks] with its gravity pass),
    the selection updater of [handleBlockClick], the deferred success
    callback and the countdown, followed by the properties of the
    specification that concern them.

    Conventions.
    - A JS array is a [list]; [a[i]] is [a !! i].  Reading a property of
      [undefined] throws a [TypeError]; a computation that can throw
      returns an [option] and [None] is the fault.
    - [number] values are integers here ([Z]): block values and targets
      are integer constants, sums stay far below 2^53.
    - [Math.random] is a source of draws threaded through the state.
    - The module [./constants] is not part of the sources: its constants
      are parameters of the development. *)

From Stdlib Require Import ZArith Lia.
From stdpp Require Import base option list strings.

Open Scope Z_scope.

(** ** Data model ([types.ts]) *)

Inductive GameMode : Set := classic | time.

Record Block : Set := mkBlock {
  id : string;
  value : Z;
  isSelected : bool
}.

(** A cell is [Block | null]; a grid is [(Block | null)[][]], indexed
    [row][col]. *)
Abbreviation Cell := (option Block).
Abbreviation Row := (list (option Block)).
Abbreviation Grid := (list (list (option Block))).

#[global] Instance GameMode_eq_dec : EqDecision GameMode.
Proof. solve_decision. Defined.

#[global] Instance Block_eq_dec : EqDecision Block.
Proof. solve_decision. Defined.

(** ** JS arrays *)

(** [a[i] = v].  Inside the array the element is replaced, at
    [i = a.length] the array grows by one; further out JS would leave
    holes, which no value of the declared element type describes: the
    model stops there. *)
Definition arr_set {A} (a : list A) (i : nat) (v : A) : option (list A) :=
  if decide (i < length a)%nat then Some (<[i := v]> a)
  else if decide (i = length a) then Some (a ++ [v])
  else None.

(** [g[r][c]] as an expression.  A missing row is a [TypeError]; a
    column outside the row reads [undefined], which is not a [Cell]:
    both end the modelled run. *)
Definition readCell (g : Grid) (r c : nat) : option Cell :=
  row ← g !! r; row !! c.

(** [g[r][c] = v].  The rows of [g] are distinct arrays wherever this is
    used (they come from [map] or from a literal), so the in-place write
    is an update of row [r] alone. *)
Definition writeCell (g : Grid) (r c : nat) (v : Cell) : option Grid :=
  row ← g !! r; row' ← arr_set row c v; Some (<[r := row']> g).

(** The same with a row index that the code computes by subtraction and
    that may therefore be negative: [g[-1]] is [undefined]. *)
Definition writeCellZ (g : Grid) (r : Z) (c : nat) (v : Cell) : option Grid :=
  if decide (r < 0) then None else writeCell g (Z.to_nat r) c v.

(** Column [c] of a grid, top to bottom. *)
Definition column (c : nat) (g : Grid) : list Cell :=
  (λ row : Row, row !!! c) <$> g.

(** The blocks of a list of cells, in order ([null]s dropped). *)
Definition blocksOf (cells : list Cell) : list Block := omap (λ x, x) cells.

(** [grid.flat()] *)
Definition flat (g : Grid) : list Cell := concat g.

(** ** Configuration ([./constants]) and randomness *)

(** The constants that [App.tsx] imports and uses in the logic. *)
Class Config : Set := {
  GRID_ROWS : nat;
  GRID_COLS : nat;
  INITIAL_ROWS : nat;
  TIME_LIMIT : Z
}.

(** [Math.random] and the three expressions that consume it. *)
Class Random : Type := {
  (** the state of the generator *)
  Rng : Type;
  (** [Math.random().toString(36).substring(2, 9)] *)
  generateId : Rng → string * Rng;
  (** [BLOCK_VALUES[Math.floor(Math.random() * BLOCK_VALUES.length)]] *)
  drawBlockValue : Rng → Z * Rng;
  (** [Math.floor(Math.random() * (MAX_TARGET - MIN_TARGET + 1)) + MIN_TARGET] *)
  drawTarget : Rng → Z * Rng
}.

Section Game.

Context {cfg : Config} {rnd : Random}.

(** [createBlock(value?)]: the id is drawn first, then the value unless
    one is given. *)
Definition createBlock (v : option Z) (rng : Rng) : Block * Rng :=
  let '(i, rng1) := generateId rng in
  let '(x, rng2) := match v with
                    | Some x => (x, rng1)
                    | None => drawBlockValue rng1
                    end in
  (mkBlock i x false, rng2).

(** [Array.from({ length: n }, () => createBlock())] *)
Fixpoint createRow (n : nat) (rng : Rng) : list Block * Rng :=
  match n with
  | O => ([], rng)
  | S n' =>
      let '(b, rng1) := createBlock None rng in
      let '(bs, rng2) := createRow n' rng1 in
      (b :: bs, rng2)
  end.

(** ** Component state ([useState] cells of [App])

    The cells the game logic reads and writes; [highScore] and
    [showInstructions] only feed the display.  [pending] holds the
    success callbacks scheduled by [setTimeout] and not yet run, oldest
    first, each with the [next] and [mode] its closure captured. *)
Record State : Type := mkState {
  mode : option GameMode;
  grid : Grid;
  targetSum : Z;
  score : Z;
  isGameOver : bool;
  timeLeft : Z;
  selectedIds : list string;
  isPaused : bool;
  rng : Rng;
  pending : list (list string * option GameMode)
}.

Definition setGrid (g : Grid) (st : State) : State :=
  mkState (mode st) g (targetSum st) (score st) (isGameOver st) (timeLeft st)
          (selectedIds st) (isPaused st) (rng st) (pending st).
Definition setTargetSum (t : Z) (st : State) : State :=
  mkState (mode st) (grid st) t (score st) (isGameOver st) (timeLeft st)
          (selectedIds st) (isPaused st) (rng st) (pending st).
Definition setScore (s : Z) (st : State) : State :=
  mkState (mode st) (grid st) (targetSum st) s (isGameOver st) (timeLeft st)
          (selectedIds st) (isPaused st) (rng st) (pending st).
Definition setIsGameOver (b : bool) (st : State) : State :=
  mkState (mode st) (grid st) (targetSum st) (score st) b (timeLeft st)
          (selectedIds st) (isPaused st) (rng st) (pending st).
Definition setTimeLeft (t : Z) (st : State) : State :=
  mkState (mode st) (grid st) (targetSum st) (score st) (isGameOver st) t
          (selectedIds st) (isPaused st) (rng st) (pending st).
Definition setSelectedIds (l : list string) (st : State) : State :=
  mkState (mode st) (grid st) (targetSum st) (score st) (isGameOver st)
          (timeLeft st) l (isPaused st) (rng st) (pending st).
Definition setIsPaused (b : bool) (st : State) : State :=
  mkState (mode st) (grid st) (targetSum st) (score st) (isGameOver st)
          (timeLeft st) (selectedIds st) b (rng st) (pending st).
Definition setMode (m : option GameMode) (st : State) : State :=
  mkState m (grid st) (targetSum st) (score st) (isGameOver st)
          (timeLeft st) (selectedIds st) (isPaused st) (rng st) (pending st).
Definition setRng (r : Rng) (st : State) : State :=
  mkState (mode st) (grid st) (targetSum st) (score st) (isGameOver st)
          (timeLeft st) (selectedIds st) (isPaused st) r (pending st).
Definition setPending (p : list (list string * option GameMode)) (st : State) : State :=
  mkState (mode st) (grid st) (targetSum st) (score st) (isGameOver st)
          (timeLeft st) (selectedIds st) (isPaused st) (rng st) p.

(** The state of the freshly mounted component: the initial values of
    the [useState] cells. *)
Definition mount (r : Rng) : State :=
  mkState None [] 0 0 false TIME_LIMIT [] false r [].

(** [generateTarget] *)
Definition generateTarget (st : State) : State :=
  let '(t, rng') := drawTarget (rng st) in
  setTargetSum t (setRng rng' st).

(** ** [addNewRow] *)

(** [cell !== null] *)
Definition notNull (cell : Cell) : bool := bool_decide (cell ≠ None).

(** The loop [for (r = r0; r < r0 + n; r++) newGrid[r] = [...newGrid[r + 1]]].
    The spread of a missing row throws.  The write is always inside the
    array, since row [r + 1] was just read. *)
Fixpoint shiftUp (n r : nat) (newGrid : Grid) : option Grid :=
  match n with
  | O => Some newGrid
  | S n' =>
      below ← newGrid !! (r + 1)%nat;
      shiftUp n' (r + 1)%nat (<[r := below]> newGrid)
  end.

(** [newGrid[GRID_ROWS - 1] = row].  With no rows configured the index is
    [-1], which names a property and no element of the array. *)
Definition setLastRow (newGrid : Grid) (row : Row) : option Grid :=
  match GRID_ROWS with
  | O => Some newGrid
  | S last => arr_set newGrid last row
  end.

(** The updater passed to [setGrid] in [addNewRow]: the next grid, the
    generator after the draws, and whether [setIsGameOver(true)] ran. *)
Definition addNewRow_updater (prev : Grid) (rng0 : Rng)
  : option (Grid * Rng * bool) :=
  top ← prev !! 0%nat;
  if existsb notNull top then Some (prev, rng0, true)
  else
    shifted ← shiftUp (GRID_ROWS - 1)%nat 0%nat prev;
    let '(bs, rng1) := createRow GRID_COLS rng0 in
    newGrid ← setLastRow shifted (Some <$> bs);
    Some (newGrid, rng1, false).

(** [addNewRow]: the grid updater, then [setTimeLeft(TIME_LIMIT)]. *)
Definition addNewRow (st : State) : option State :=
  match addNewRow_updater (grid st) (rng st) with
  | None => None
  | Some (g, rng1, over) =>
      let st1 := setRng rng1 (setGrid g st) in
      let st2 := if over then setIsGameOver true st1 else st1 in
      Some (setTimeLeft TIME_LIMIT st2)
  end.

(** ** [removeBlocks] and gravity *)

(** [cell && ids.includes(cell.id) ? null : cell] *)
Definition clearCell (ids : list string) (cell : Cell) : Cell :=
  match cell with
  | Some b => if bool_decide (id b ∈ ids) then None else cell
  | None => cell
  end.

(** One pass of the inner loop body at row [r] of column [c]; the state
    is the grid and [emptyRow]. *)
Definition settleCell (c r : nat) (s : Grid * Z) : option (Grid * Z) :=
  let '(newGrid, emptyRow) := s in
  cell ← readCell newGrid r c;
  match cell with
  | None => Some (newGrid, emptyRow)
  | Some temp =>
      g1 ← writeCell newGrid r c None;
      g2 ← writeCellZ g1 emptyRow c (Some temp);
      Some (g2, emptyRow - 1)
  end.

(** [for (r = n - 1; r >= 0; r--) ...] *)
Fixpoint settleRows (c n : nat) (s : Grid * Z) : option (Grid * Z) :=
  match n with
  | O => Some s
  | S r => s' ← settleCell c r s; settleRows c r s'
  end.

(** The body of the outer loop for column [c]. *)
Definition settleColumn (c : nat) (newGrid : Grid) : option Grid :=
  fst <$> settleRows c GRID_ROWS (newGrid, Z.of_nat GRID_ROWS - 1).

(** [for (c = c0; c < c0 + n; c++) ...] *)
Fixpoint settleColumns (n c : nat) (newGrid : Grid) : option Grid :=
  match n with
  | O => Some newGrid
  | S n' => g ← settleColumn c newGrid; settleColumns n' (c + 1)%nat g
  end.

(** "Apply gravity: blocks fall down". *)
Definition applyGravity (newGrid : Grid) : option Grid :=
  settleColumns GRID_COLS 0%nat newGrid.

(** The updater passed to [setGrid] in [removeBlocks]. *)
Definition removeBlocks_updater (ids : list string) (prev : Grid) : option Grid :=
  applyGravity (map (map (clearCell ids)) prev).

(** [removeBlocks(ids)] *)
Definition removeBlocks (ids : list string) (st : State) : option State :=
  g ← removeBlocks_updater ids (grid st);
  Some (setSelectedIds [] (setGrid g st)).

(** ** [handleBlockClick] *)

(** [item?.id === id] *)
Definition hasId (i : string) (item : Cell) : bool :=
  match item with
  | Some b => bool_decide (id b = i)
  | None => false
  end.

(** [grid.flat().find((item) => item?.id === id)]: the first matching
    cell, which is a block, or [undefined]. *)
Definition findBlock (g : Grid) (i : string) : option Block :=
  mjoin (List.find (hasId i) (flat g)).

(** [b?.value || 0] *)
Definition valueOrZero (b : option Block) : Z :=
  match b with
  | Some b => if value b =? 0 then 0 else value b
  | None => 0
  end.

(** [next.reduce((sum, id) => sum + (b?.value || 0), 0)] *)
Definition currentSum (g : Grid) (next : list string) : Z :=
  fold_left (λ sum i, sum + valueOrZero (findBlock g i)) next 0.

(** The [next] of the updater: the click removes an id that is selected,
    appends one that is not. *)
Definition nextSelection (prev : list string) (i : string) : list string :=
  if bool_decide (i ∈ prev) then filter (λ x, x ≠ i) prev else prev ++ [i].

(** The three ways out of the updater of [handleBlockClick]. *)
Inductive Outcome : Set := CONTINUE | EXACT_MATCH | EXCEEDED.

#[global] Instance Outcome_eq_dec : EqDecision Outcome.
Proof. solve_decision. Defined.

(** "Check sum": the branch taken for [next]. *)
Definition checkSum (g : Grid) (target : Z) (next : list string) : Outcome :=
  let s := currentSum g next in
  if s =? target then EXACT_MATCH
  else if s >? target then EXCEEDED
  else CONTINUE.

(** The updater passed to [setSelectedIds]: the selection it returns and
    the branch it took. *)
Definition toggle (g : Grid) (target : Z) (prev : list string) (i : string)
  : list string * Outcome :=
  let next := nextSelection prev i in
  match checkSum g target next with
  | EXACT_MATCH => ([], EXACT_MATCH)
  | EXCEEDED => ([], EXCEEDED)
  | CONTINUE => (next, CONTINUE)
  end.

(** [handleBlockClick(block)].  On an exact match the success callback
    is handed to [setTimeout] with the [next] and [mode] of this call. *)
Definition handleBlockClick (block : Block) (st : State) : State :=
  if isGameOver st || isPaused st then st
  else
    let next := nextSelection (selectedIds st) (id block) in
    match toggle (grid st) (targetSum st) (selectedIds st) (id block) with
    | (sel, EXACT_MATCH) =>
        setPending (pending st ++ [(next, mode st)]) (setSelectedIds sel st)
    | (sel, _) => setSelectedIds sel st
    end.

(** The callback of [setTimeout(..., 100)] ([confetti] is presentation). *)
Definition successCallback (next : list string) (m : option GameMode)
    (st : State) : option State :=
  st1 ← removeBlocks next st;
  let st2 := setScore (score st1 + Z.of_nat (length next) * 10) st1 in
  let st3 := generateTarget st2 in
  if decide (m = Some classic) then addNewRow st3 else Some st3.

(** ** The countdown *)

(** The callback of [setInterval(..., 1000)]; the effect installs it only
    in time mode while the game is neither over nor paused. *)
Definition tick (st : State) : option State :=
  if bool_decide (mode st = Some time) && negb (isGameOver st)
     && negb (isPaused st)
  then
    if timeLeft st <=? 1
    then st1 ← addNewRow st; Some (setTimeLeft TIME_LIMIT st1)
    else Some (setTimeLeft (timeLeft st - 1) st)
  else Some st.

(** ** [initGame] *)

(** [for (c = c0; c < c0 + n; c++) initialGrid[r][c] = createBlock()] *)
Fixpoint fillCells (n : nat) (r : Z) (c : nat) (s : Grid * Rng)
  : option (Grid * Rng) :=
  match n with
  | O => Some s
  | S n' =>
      let '(b, rng1) := createBlock None (snd s) in
      g ← writeCellZ (fst s) r c (Some b);
      fillCells n' r (c + 1)%nat (g, rng1)
  end.

(** [for (r = r0; r < r0 + n; r++) for (c = 0; c < GRID_COLS; c++) ...] *)
Fixpoint fillRows (n : nat) (r : Z) (s : Grid * Rng) : option (Grid * Rng) :=
  match n with
  | O => Some s
  | S n' => s1 ← fillCells GRID_COLS r 0%nat s; fillRows n' (r + 1) s1
  end.

(** [initGame(selectedMode)].  Timeouts still pending are not cancelled. *)
Definition initGame (selectedMode : GameMode) (st : State) : option State :=
  let initialGrid := replicate GRID_ROWS (replicate GRID_COLS None) in
  s ← fillRows INITIAL_ROWS (Z.of_nat GRID_ROWS - Z.of_nat INITIAL_ROWS)
               (initialGrid, rng st);
  let '(t, rng2) := drawTarget (snd s) in
  Some (mkState (Some selectedMode) (fst s) t 0 false TIME_LIMIT [] false
                rng2 (pending st)).

(** ** Sessions *)

(** What can happen to a mounted game: a click on a rendered block, the
    oldest pending success callback running, the interval firing, the
    pause button. *)
Inductive Event : Set :=
  | Click (block : Block)
  | Timeout
  | Tick
  | PauseToggle.

Definition step (st : State) (e : Event) : option State :=
  match e with
  | Click block => Some (handleBlockClick block st)
  | Timeout =>
      match pending st with
      | [] => Some st
      | (next, m) :: rest => successCallback next m (setPending rest st)
      end
  | Tick => tick st
  | PauseToggle => Some (setIsPaused (negb (isPaused st)) st)
  end.

Fixpoint run (st : State) (evs : list Event) : option State :=
  match evs with
  | [] => Some st
  | e :: evs' => st1 ← step st e; run st1 evs'
  end.

(** ** Measures used by the properties *)

(** The live blocks, in reading order, and their ids. *)
Definition liveBlocks (g : Grid) : list Block := blocksOf (flat g).
Definition liveIds (g : Grid) : list string := id <$> liveBlocks g.

(** The number of blocks that [removeBlocks(ids)] takes out of [g]: the
    blocks whose id is among [ids]. *)
Definition clearedBy (ids : list string) (g : Grid) : nat :=
  length (filter (λ b, id b ∈ ids) (liveBlocks g)).

(** A selection names blocks one by one: no id twice, every id that of
    exactly one live block. *)
Definition namesBlocks (ids : list string) (g : Grid) : Prop :=
  NoDup ids ∧ ids ⊆ liveIds g ∧ NoDup (liveIds g).

(** The numbers of blocks cleared by the success callbacks of a run,
    oldest first. *)
Fixpoint clearedLog (st : State) (evs : list Event) : list nat :=
  match evs with
  | [] => []
  | e :: evs' =>
      let here :=
        match e, pending st with
        | Timeout, (next, _) :: _ => [clearedBy next (grid st)]
        | _, _ => []
        end in
      match step st e with
      | Some st1 => here ++ clearedLog st1 evs'
      | None => here
      end
  end.

(** Every success callback of the run finds its blocks in the grid.
    (A callback scheduled for blocks that an earlier callback has already
    cleared, which takes the same blocks to be selected again during the
    delay, does not.) *)
Fixpoint matchesLive (st : State) (evs : list Event) : Prop :=
  match evs with
  | [] => True
  | e :: evs' =>
      match e, pending st with
      | Timeout, (next, _) :: _ => namesBlocks next (grid st)
      | _, _ => True
      end ∧
      match step st e with
      | Some st1 => matchesLive st1 evs'
      | None => True
      end
  end.

#[global] Instance namesBlocks_dec (ids : list string) (g : Grid) :
  Decision (namesBlocks ids g).
Proof. unfold namesBlocks. apply _. Defined.

#[global] Instance matchesLive_dec (st : State) (evs : list Event) :
  Decision (matchesLive st evs).
Proof.
  revert st. induction evs as [|e evs IH]; intros st; simpl; [apply _|].
  apply and_dec.
  - destruct e, (pending st) as [|[next m] rest]; apply _.
  - destruct (step st e); apply _.
Defined.

(** A column after its blocks have come to rest: the blocks in their
    former order at the bottom, empty cells above them. *)
Definition settled (cells : list Cell) : list Cell :=
  replicate (length cells - length (blocksOf cells))%nat None
  ++ (Some <$> blocksOf cells).

(** A grid of the configured shape. *)
Definition rectangular (g : Grid) : Prop :=
  length g = GRID_ROWS ∧ Forall (λ row : Row, length row = GRID_COLS) g.

(** The events that the component gates on [isGameOver] and [isPaused]:
    the click handler returns at once and the interval is not installed.
    The success callback and the pause button are not gated. *)
Definition gated (e : Event) : bool :=
  match e with
  | Click _ | Tick => true
  | Timeout | PauseToggle => false
  end.

(** A selection in good standing: no id twice, every id that of a live
    block, and either nothing selected or a sum still short of the
    target. *)
Definition selectionOk (st : State) : Prop :=
  NoDup (selectedIds st) ∧
  selectedIds st ⊆ liveIds (grid st) ∧
  (selectedIds st = [] ∨
   currentSum (grid st) (selectedIds st) < targetSum st).

(** Every click of the run is on a block that the grid holds at that
    moment (the component renders a button for each block of the grid
    and for nothing else). *)
Fixpoint clicksLive (st : State) (evs : list Event) : Prop :=
  match evs with
  | [] => True
  | e :: evs' =>
      match e with
      | Click block => id block ∈ liveIds (grid st)
      | _ => True
      end ∧
      match step st e with
      | Some st1 => clicksLive st1 evs'
      | None => True
      end
  end.

#[global] Instance clicksLive_dec (st : State) (evs : list Event) :
  Decision (clicksLive st evs).
Proof.
  revert st. induction evs as [|e evs IH]; intros st; simpl; [apply _|].
  apply and_dec.
  - destruct e; apply _.
  - destruct (step st e); apply _.
Defined.

(** No live block is worth less than nothing. *)
Definition valuesNonNegative (g : Grid) : Prop :=
  ∀ b, b ∈ liveBlocks g → 0 ≤ value b.

(** The number of blocks that [removeBlocks(next)] really takes out of
    [g]: the live blocks before the updater minus the live blocks after
    it. *)
Definition blocksCleared (next : list string) (g : Grid) : nat :=
  match removeBlocks_updater next g with
  | Some g' => (length (liveBlocks g) - length (liveBlocks g'))%nat
  | None => 0%nat
  end.

(** The same for each success callback of a run, oldest first. *)
Fixpoint clearedCounts (st : State) (evs : list Event) : list nat :=
  match evs with
  | [] => []
  | e :: evs' =>
      let here :=
        match e, pending st with
        | Timeout, (next, _) :: _ => [blocksCleared next (grid st)]
        | _, _ => []
        end in
      match step st e with
      | Some st1 => here ++ clearedCounts st1 evs'
      | None => here
      end
  end.

End Game.

(** ** A small configuration to run the model on *)

Module Demo.

Definition config : Config :=
  {| GRID_ROWS := 4; GRID_COLS := 4; INITIAL_ROWS := 2; TIME_LIMIT := 10 |}.

Definition idOf (n : nat) : string :=
  String (Ascii.ascii_of_nat (97 + n)) EmptyString.

(** A counter stands for the generator: ids never repeat, values run
    through 1..9, targets through 5..15. *)
Definition random : Random :=
  {| Rng := nat;
     generateId := λ n, (idOf n, S n);
     drawBlockValue := λ n, (Z.of_nat (n mod 9) + 1, S n);
     drawTarget := λ n, (Z.of_nat (n mod 11) + 5, S n) |}.

Definition blk (i : string) (v : Z) : Cell := Some (mkBlock i v false).

Definition emptyRow : Row := [None; None; None; None].

(** Two blocks on the floor, nothing else. *)
Definition floorGrid : Grid :=
  [ emptyRow; emptyRow; emptyRow;
    [blk "p" 2; blk "q" 3; blk "r" 6; None] ].

(** A grid that reaches the top row in column 0. *)
Definition fullGrid : Grid :=
  [ [blk "t" 1; None; None; None];
    [blk "u" 2; None; None; None];
    [blk "v" 3; None; None; None];
    [blk "w" 4; blk "x" 5; None; None] ].

(** Blocks hanging in mid-air, as [removeBlocks] leaves them before the
    gravity pass. *)
Definition looseGrid : Grid :=
  [ [blk "a" 1; None;      None; None];
    [None;      blk "b" 2; None; None];
    [blk "c" 3; None;      None; None];
    [None;      blk "d" 4; None; blk "e" 5] ].

Definition playing (g : Grid) (target : Z) (sel : list string)
  : @State random :=
  @mkState random (Some classic) g target 0 false 10 sel false 6%nat [].

(** The component as mounted, before any game. *)
Definition mounted : @State random := @mount config random 0%nat.

(** A classic game: two matches of two blocks each, an interval firing
    in between (which classic mode ignores). *)
Definition session : list Event :=
  [ Click (mkBlock "a" 2 false); Click (mkBlock "g" 8 false); Timeout;
    Tick;
    Click (mkBlock "c" 4 false); Click (mkBlock "o" 7 false); Timeout ].

Definition opened : @State random :=
  Eval vm_compute in default mounted (@initGame config random classic mounted).

Definition closed : @State random :=
  Eval vm_compute in default opened (@run config random opened session).

(** A configuration that asks for more initial rows than there are rows. *)
Definition tallConfig : Config :=
  {| GRID_ROWS := 2; GRID_COLS := 2; INITIAL_ROWS := 3; TIME_LIMIT := 10 |}.

(** A pile that has reached the second row. *)
Definition highGrid : Grid :=
  [ emptyRow;
    [blk "u" 2; None; None; None];
    [blk "v" 3; None; None; None];
    [blk "w" 4; blk "x" 5; None; None] ].

(** A game in time mode with the countdown at [left]. *)
Definition timed (g : Grid) (target left : Z) (sel : list string)
    (p : list (list string * option GameMode)) : @State random :=
  @mkState random (Some time) g target 0 false left sel false 6%nat p.

(** A game that is over, and what a few more events make of it. *)
Definition over : @State random :=
  @setIsGameOver random true (playing fullGrid 9 ["w"]).

Definition afterOver : @State random :=
  Eval vm_compute in
    default over
      (@run config random over
         [Click (mkBlock "x" 5 false); Tick; PauseToggle; Timeout]).

(** The opened game with its block "a" selected. *)
Definition holding : @State random :=
  Eval vm_compute in
    default opened (@run config random opened [Click (mkBlock "a" 2 false)]).

(** A match repeated during the delay: "a" and "g" make the target, are
    clicked again before the first callback has run, and then the two
    callbacks run. *)
Definition hastySession : list Event :=
  [ Click (mkBlock "a" 2 false); Click (mkBlock "g" 8 false);
    Click (mkBlock "a" 2 false); Click (mkBlock "g" 8 false);
    Timeout; Timeout ].

Definition afterHaste : @State random :=
  Eval vm_compute in
    default opened (@run config random opened hastySession).

End Demo.

(** * Properties *)

Section Properties.

Context {cfg : Config} {rnd : Random}.

(** ** Row insertion *)

Lemma existsb_notNull_true (row : Row) :
  existsb notNull row = true ↔ ∃ cell, cell ∈ row ∧ cell ≠ None.
Proof.
  rewrite existsb_exists. split.
  - intros (cell & Hin & Hnn). exists cell. split.
    + by apply list_elem_of_In.
    + unfold notNull in Hnn. by apply bool_decide_eq_true in Hnn.
  - intros (cell & Hin & Hnn). exists cell. split.
    + by apply list_elem_of_In.
    + unfold notNull. by apply bool_decide_eq_true.
Qed.

Lemma existsb_notNull_false (row : Row) :
  existsb notNull row = false ↔ Forall (λ cell, cell = None) row.
Proof.
  rewrite Forall_forall. split.
  - intros Hex cell Hin. destruct cell as [b|]; [|done].
    assert (existsb notNull row = true) as Ht; [|congruence].
    apply existsb_notNull_true. by exists (Some b).
  - intros Hall. destruct (existsb notNull row) eqn:Hex; [|done].
    apply existsb_notNull_true in Hex as (cell & Hin & Hnn).
    by specialize (Hall cell Hin).
Qed.

(** The shifting loop, read off index by index. *)
Lemma shiftUp_spec (n r : nat) (g : Grid) :
  (r + n < length g)%nat →
  ∃ g', shiftUp n r g = Some g' ∧ length g' = length g ∧
        ∀ i, g' !! i = if decide (r ≤ i < r + n)%nat
                       then g !! (i + 1)%nat else g !! i.
Proof.
  revert r g. induction n as [|n IH]; intros r g Hlen.
  - exists g. split; [done|]. split; [done|].
    intros i. case_decide; [lia|done].
  - simpl. destruct (lookup_lt_is_Some_2 g (r + 1)%nat) as [below Hb]; [lia|].
    rewrite Hb. simpl.
    destruct (IH (r + 1)%nat (<[r := below]> g)) as (g' & Hrun & Hl & Hat).
    { rewrite length_insert. lia. }
    exists g'. split; [done|]. split; [by rewrite Hl, length_insert|].
    intros i. rewrite Hat.
    destruct (decide (i = r)) as [->|Hne].
    + rewrite decide_False by lia. rewrite decide_True by lia.
      rewrite list_lookup_insert_eq by lia. done.
    + repeat case_decide; try lia;
        rewrite list_lookup_insert_ne by lia; done.
Qed.

Lemma createRow_length (n : nat) (r : Rng) : length (createRow n r).1 = n.
Proof.
  revert r. induction n as [|n IH]; intros r; [done|].
  simpl. destruct (createBlock None r) as [b r1].
  specialize (IH r1). destruct (createRow n r1) as [bs r2]. simpl in *.
  by rewrite IH.
Qed.

(** What [addNewRow] does when the top row holds a block. *)
Lemma addNewRow_when_occupied (st : State) (top : Row) :
  grid st !! 0%nat = Some top →
  existsb notNull top = true →
  addNewRow st = Some (setTimeLeft TIME_LIMIT (setIsGameOver true st)).
Proof.
  intros Htop Hex. unfold addNewRow, addNewRow_updater.
  rewrite Htop. simpl. rewrite Hex. by destruct st.
Qed.

(** What [addNewRow] does when the top row is free. *)
Lemma addNewRow_when_free (st : State) (top : Row) :
  length (grid st) = GRID_ROWS →
  grid st !! 0%nat = Some top →
  existsb notNull top = false →
  ∃ g', addNewRow st =
          Some (setTimeLeft TIME_LIMIT
                  (setRng (createRow GRID_COLS (rng st)).2 (setGrid g' st))) ∧
        length g' = GRID_ROWS ∧
        (∀ r, (r + 1 < GRID_ROWS)%nat → g' !! r = grid st !! (r + 1)%nat) ∧
        g' !! (GRID_ROWS - 1)%nat
          = Some (Some <$> (createRow GRID_COLS (rng st)).1).
Proof.
  intros Hlen Htop Hex. unfold addNewRow, addNewRow_updater.
  rewrite Htop. simpl. rewrite Hex.
  assert (0 < GRID_ROWS)%nat as Hpos.
  { rewrite <- Hlen. apply lookup_lt_Some in Htop. lia. }
  destruct (shiftUp_spec (GRID_ROWS - 1) 0 (grid st)) as (sh & -> & Hl & Hat);
    [lia|].
  simpl. destruct (createRow GRID_COLS (rng st)) as [bs rng1] eqn:Hrow.
  unfold setLastRow. destruct GRID_ROWS as [|last] eqn:HR; [lia|].
  unfold arr_set. rewrite decide_True by lia. simpl.
  eexists. split; [reflexivity|]. split; [rewrite length_insert; lia|]. split.
  - intros r Hr. rewrite list_lookup_insert_ne by lia.
    rewrite Hat. rewrite decide_True by lia. done.
  - replace (last - 0)%nat with last by lia.
    rewrite list_lookup_insert_eq by lia. done.
Qed.

(** C2.  When the top row of the grid holds at least one block,
    [addNewRow] completes, raises the game-over flag and returns the very
    grid it was given: no row is shifted, no block is created (the
    generator is untouched), score, target and selection stay as they
    were. *)
Theorem addNewRow_occupied_top_is_game_over
    (st : State) (top : Row) (cell : Cell) :
  grid st !! 0%nat = Some top →
  cell ∈ top →
  cell ≠ None →
  ∃ st', addNewRow st = Some st' ∧
         isGameOver st' = true ∧
         grid st' = grid st ∧
         rng st' = rng st ∧
         score st' = score st ∧
         targetSum st' = targetSum st ∧
         selectedIds st' = selectedIds st.
Proof.
  intros Htop Hin Hnn.
  assert (existsb notNull top = true) as Hex.
  { apply existsb_notNull_true. by exists cell. }
  rewrite (addNewRow_when_occupied st top Htop Hex).
  eexists. split; [reflexivity|]. by destruct st.
Qed.

(** C3.  When the top row of a grid of [GRID_ROWS] rows is entirely
    empty, [addNewRow] completes without raising the game-over flag; the
    new grid has [GRID_ROWS] rows again, each row [r] up to
    [GRID_ROWS - 2] is the former row [r + 1], and the bottom row is made
    of exactly [GRID_COLS] blocks, all of them just produced by
    [createBlock] and none of them empty: nothing of the former bottom
    row stays in place. *)
Theorem addNewRow_free_top_shifts_and_appends (st : State) (top : Row) :
  length (grid st) = GRID_ROWS →
  grid st !! 0%nat = Some top →
  Forall (λ cell, cell = None) top →
  let fresh := (createRow GRID_COLS (rng st)).1 in
  ∃ st', addNewRow st = Some st' ∧
         isGameOver st' = isGameOver st ∧
         length (grid st') = GRID_ROWS ∧
         (∀ r, (r + 1 < GRID_ROWS)%nat →
               grid st' !! r = grid st !! (r + 1)%nat) ∧
         grid st' !! (GRID_ROWS - 1)%nat = Some (Some <$> fresh) ∧
         length fresh = GRID_COLS.
Proof.
  intros Hlen Htop Hempty fresh.
  apply existsb_notNull_false in Hempty.
  destruct (addNewRow_when_free st top Hlen Htop Hempty)
    as (g' & -> & Hl & Hshift & Hlast).
  eexists. split; [reflexivity|]. destruct st. simpl in *.
  repeat split; try done. apply createRow_length.
Qed.

(** C10.  Every call of [addNewRow] that completes leaves the countdown
    at [TIME_LIMIT], whatever it was before.  On a grid of [GRID_ROWS]
    rows the call does complete, and this holds in particular for the
    call that finds the top row occupied and raises the game-over flag:
    that call leaves the grid alone, not the countdown. *)
Theorem addNewRow_resets_countdown (st : State) (top : Row) :
  length (grid st) = GRID_ROWS →
  grid st !! 0%nat = Some top →
  ∃ st', addNewRow st = Some st' ∧
         timeLeft st' = TIME_LIMIT ∧
         (existsb notNull top = true →
            isGameOver st' = true ∧ grid st' = grid st).
Proof.
  intros Hlen Htop. destruct (existsb notNull top) eqn:Hex.
  - rewrite (addNewRow_when_occupied st top Htop Hex).
    eexists. split; [reflexivity|]. by destruct st.
  - destruct (addNewRow_when_free st top Hlen Htop Hex) as (g' & -> & _).
    eexists. split; [reflexivity|]. split; [by destruct st|done].
Qed.

(** ** Selection *)

Lemma find_hasId_None (i : string) (cells : list Cell) :
  i ∉ id <$> blocksOf cells → List.find (hasId i) cells = None.
Proof.
  induction cells as [|[b|] cells IH]; simpl; intros Hni; [done| |by apply IH].
  unfold blocksOf in Hni. simpl in Hni.
  apply not_elem_of_cons in Hni as [Hne Hni].
  rewrite bool_decide_eq_false_2 by done. by apply IH.
Qed.

Lemma find_hasId_Some (i : string) (cells : list Cell) (item : Cell) :
  List.find (hasId i) cells = Some item →
  ∃ b, item = Some b ∧ id b = i ∧ b ∈ blocksOf cells.
Proof.
  induction cells as [|[b|] cells IH]; simpl; intros Hf; [done| |].
  - unfold blocksOf. simpl. case_bool_decide as Hid.
    + injection Hf as <-. exists b. repeat split; [done|]. apply list_elem_of_here.
    + destruct (IH Hf) as (b' & -> & Hi & Hin). exists b'.
      repeat split; [done|]. by apply list_elem_of_further.
  - by apply IH.
Qed.

Lemma findBlock_unknown (g : Grid) (i : string) :
  i ∉ liveIds g → findBlock g i = None.
Proof.
  intros Hni. unfold findBlock. by rewrite find_hasId_None.
Qed.

Lemma findBlock_live (g : Grid) (i : string) (b : Block) :
  findBlock g i = Some b → id b = i ∧ b ∈ liveBlocks g.
Proof.
  unfold findBlock. destruct (List.find (hasId i) (flat g)) as [item|] eqn:Hf;
    [|done].
  destruct (find_hasId_Some _ _ _ Hf) as (b' & -> & Hi & Hin).
  simpl. by intros [= <-].
Qed.

Lemma fold_sum_shift (g : Grid) (ids : list string) (acc : Z) :
  fold_left (λ sum i, sum + valueOrZero (findBlock g i)) ids acc
  = acc + currentSum g ids.
Proof.
  unfold currentSum. revert acc. induction ids as [|i ids IH]; intros acc.
  - simpl. lia.
  - cbn [fold_left]. rewrite IH. rewrite (IH (0 + valueOrZero _)). lia.
Qed.

Lemma currentSum_cons (g : Grid) (i : string) (ids : list string) :
  currentSum g (i :: ids) = valueOrZero (findBlock g i) + currentSum g ids.
Proof. unfold currentSum at 1. cbn [fold_left]. by rewrite fold_sum_shift. Qed.

Lemma currentSum_app (g : Grid) (ids1 ids2 : list string) :
  currentSum g (ids1 ++ ids2) = currentSum g ids1 + currentSum g ids2.
Proof.
  induction ids1 as [|i ids1 IH]; [done|].
  simpl. rewrite !currentSum_cons, IH. lia.
Qed.

Lemma currentSum_perm (g : Grid) (ids1 ids2 : list string) :
  ids1 ≡ₚ ids2 → currentSum g ids1 = currentSum g ids2.
Proof.
  induction 1 as [|i l1 l2 _ IH|i j l|l1 l2 l3 _ IH1 _ IH2].
  - done.
  - by rewrite !currentSum_cons, IH.
  - rewrite !currentSum_cons. lia.
  - by rewrite IH1.
Qed.

Lemma valueOrZero_nonneg (g : Grid) (i : string) :
  (∀ b, b ∈ liveBlocks g → 0 ≤ value b) → 0 ≤ valueOrZero (findBlock g i).
Proof.
  intros Hpos. destruct (findBlock g i) as [b|] eqn:Hf; simpl; [|done].
  apply findBlock_live in Hf as [_ Hin]. specialize (Hpos b Hin).
  destruct (value b =? 0); lia.
Qed.

Lemma currentSum_filter_le (g : Grid) (P : string → Prop)
    `{!∀ x, Decision (P x)} (ids : list string) :
  (∀ b, b ∈ liveBlocks g → 0 ≤ value b) →
  currentSum g (filter P ids) ≤ currentSum g ids.
Proof.
  intros Hpos. induction ids as [|i ids IH]; [done|].
  rewrite filter_cons. pose proof (valueOrZero_nonneg g i Hpos).
  destruct (decide (P i)); rewrite !currentSum_cons; lia.
Qed.

Lemma checkSum_cases (g : Grid) (target : Z) (next : list string) :
  (currentSum g next = target ∧ checkSum g target next = EXACT_MATCH) ∨
  (currentSum g next > target ∧ checkSum g target next = EXCEEDED) ∨
  (currentSum g next < target ∧ checkSum g target next = CONTINUE).
Proof.
  unfold checkSum. cbv zeta.
  destruct (Z.eqb_spec (currentSum g next) target) as [Heq|Hne]; [by left|].
  right. rewrite Z.gtb_ltb.
  destruct (Z.ltb_spec target (currentSum g next)); [left|right]; split;
    (lia || done).
Qed.

(** Case analysis on the branch that "Check sum" takes for [next]. *)
Ltac sum_cases g target next :=
  destruct (checkSum_cases g target next) as [[? ->]|[[? ->]|[? ->]]].

Lemma toggle_below (g : Grid) (target : Z) (prev : list string) (i : string) :
  currentSum g (nextSelection prev i) < target →
  toggle g target prev i = (nextSelection prev i, CONTINUE).
Proof.
  intros Hlt. unfold toggle. cbv zeta.
  sum_cases g target (nextSelection prev i); (lia || done).
Qed.

Lemma filter_out_absent (i : string) (l : list string) :
  i ∉ l → filter (λ x, x ≠ i) l = l.
Proof.
  induction l as [|x l IH]; intros Hni; [done|].
  apply not_elem_of_cons in Hni as [Hne Hni].
  rewrite filter_cons_True by done. by rewrite IH.
Qed.

Lemma filter_out_reinsert (i : string) (l : list string) :
  NoDup l → i ∈ l → filter (λ x, x ≠ i) l ++ [i] ≡ₚ l.
Proof.
  intros Hnd Hin. apply NoDup_Permutation; [|done|].
  - apply NoDup_app. split; [by apply NoDup_filter|]. split.
    + intros x Hx Hxi. apply list_elem_of_filter in Hx as [Hne _].
      apply list_elem_of_singleton in Hxi. done.
    + apply NoDup_singleton.
  - intros x. rewrite elem_of_app, list_elem_of_filter,
      list_elem_of_singleton. split.
    + intros [[_ ?]| ->]; done.
    + intros Hx. destruct (decide (x = i)); [by right|by left].
Qed.

(** The updater on a selected id, whatever its arguments: it removes the
    id and runs the sum check on the reduced selection like on any other.
    It ends in CONTINUE with the reduced selection exactly when that
    selection sums to less than the target, which is the case whenever no
    live block has a negative value and the selection summed to less than
    the target before. *)
Lemma toggle_off_continues_below_target
    (g : Grid) (target : Z) (prev : list string) (i : string) :
  i ∈ prev →
  let reduced := filter (λ x, x ≠ i) prev in
  (toggle g target prev i = (reduced, CONTINUE)
     ↔ currentSum g reduced < target) ∧
  (currentSum g reduced = target →
   toggle g target prev i = ([], EXACT_MATCH)) ∧
  (currentSum g reduced > target →
   toggle g target prev i = ([], EXCEEDED)) ∧
  ((∀ b, b ∈ liveBlocks g → 0 ≤ value b) →
   currentSum g prev < target →
   toggle g target prev i = (reduced, CONTINUE)).
Proof.
  intros Hin reduced.
  assert (nextSelection prev i = reduced) as Hnext.
  { unfold nextSelection. by rewrite bool_decide_eq_true_2. }
  split; [|split; [|split]].
  - unfold toggle. cbv zeta. rewrite Hnext.
    sum_cases g target reduced; split; intros; (done || lia).
  - unfold toggle. cbv zeta. rewrite Hnext.
    sum_cases g target reduced; intros; (done || lia).
  - unfold toggle. cbv zeta. rewrite Hnext.
    sum_cases g target reduced; intros; (done || lia).
  - intros Hpos Hlt. rewrite <- Hnext. apply toggle_below. rewrite Hnext.
    pose proof (currentSum_filter_le g (λ x, x ≠ i) prev Hpos).
    unfold reduced. lia.
Qed.

(** C5.  A click on a block that is not selected appends its id.  With
    [s] the sum over the updated selection ([s] is the former sum plus
    what the new id resolves to), the click ends in EXACT_MATCH with an
    empty selection when [s] equals the target, in EXCEEDED with an empty
    selection when [s] is greater, and in CONTINUE with the updated,
    non-empty selection when [s] is smaller.  The three cases are decided
    by equality and order on integers. *)
Theorem toggle_append_classifies
    (g : Grid) (target : Z) (prev : list string) (i : string) :
  i ∉ prev →
  let next := prev ++ [i] in
  let s := currentSum g next in
  s = currentSum g prev + valueOrZero (findBlock g i) ∧
  (s = target → toggle g target prev i = ([], EXACT_MATCH)) ∧
  (s > target → toggle g target prev i = ([], EXCEEDED)) ∧
  (s < target → toggle g target prev i = (next, CONTINUE) ∧ next ≠ []).
Proof.
  intros Hni next s.
  assert (nextSelection prev i = next) as Hnext.
  { unfold nextSelection. by rewrite bool_decide_eq_false_2. }
  split.
  { unfold s, next. rewrite currentSum_app, currentSum_cons.
    change (currentSum g []) with 0. lia. }
  unfold toggle. cbv zeta. rewrite Hnext.
  sum_cases g target next; (repeat split); intros; try done; try lia.
  unfold next. by destruct prev.
Qed.

(** C6 (amended).  Take a selection without repeated ids that sums to
    less than the target, and a click on a block.  If the click ends in
    CONTINUE, a second click on the same block ends in CONTINUE as well
    and gives back the ids of the original selection: the very same
    sequence when the block was not selected at first; when it was, the
    original sequence with the id of the block taken out and put at the
    end.  If the click ends in EXACT_MATCH or EXCEEDED, it returns the
    empty selection, and the second click is a click on the empty
    selection. *)
Theorem toggle_twice_restores
    (g : Grid) (target : Z) (prev : list string) (i : string) :
  NoDup prev →
  currentSum g prev < target →
  ((toggle g target prev i).2 = CONTINUE →
   ∃ back, toggle g target (toggle g target prev i).1 i = (back, CONTINUE) ∧
           back ≡ₚ prev ∧
           (i ∉ prev → back = prev) ∧
           (i ∈ prev → back = filter (λ x, x ≠ i) prev ++ [i])) ∧
  ((toggle g target prev i).2 ≠ CONTINUE →
   (toggle g target prev i).1 = [] ∧
   toggle g target (toggle g target prev i).1 i = toggle g target [] i).
Proof.
  intros Hnd Hlt. split.
  - intros Hout.
    assert (toggle g target prev i = (nextSelection prev i, CONTINUE)) as Hone.
    { revert Hout. unfold toggle. cbv zeta.
      destruct (checkSum g target (nextSelection prev i)); simpl; done. }
    rewrite Hone. simpl. destruct (decide (i ∈ prev)) as [Hin|Hni].
    + assert (nextSelection prev i = filter (λ x, x ≠ i) prev) as ->.
      { unfold nextSelection. by rewrite bool_decide_eq_true_2. }
      assert (i ∉ filter (λ x, x ≠ i) prev) as Hgone.
      { intros [? _]%list_elem_of_filter. done. }
      pose proof (filter_out_reinsert i prev Hnd Hin) as Hperm.
      exists (filter (λ x, x ≠ i) prev ++ [i]).
      split; [|split; [done|split; done]].
      assert (nextSelection (filter (λ x, x ≠ i) prev) i
              = filter (λ x, x ≠ i) prev ++ [i]) as Hnext.
      { unfold nextSelection. by rewrite bool_decide_eq_false_2. }
      rewrite <- Hnext. apply toggle_below. rewrite Hnext.
      by rewrite (currentSum_perm g _ _ Hperm).
    + assert (nextSelection prev i = prev ++ [i]) as ->.
      { unfold nextSelection. by rewrite bool_decide_eq_false_2. }
      assert (nextSelection (prev ++ [i]) i = prev) as Hnext.
      { unfold nextSelection. rewrite bool_decide_eq_true_2.
        - rewrite filter_app, filter_out_absent by done.
          rewrite filter_cons_False by (intros ?; done).
          by rewrite filter_nil, app_nil_r.
        - apply elem_of_app. right. apply list_elem_of_here. }
      exists prev. split; [|split; [done|split; done]].
      rewrite <- Hnext at 2. apply toggle_below. by rewrite Hnext.
  - intros Hout.
    assert ((toggle g target prev i).1 = []) as Hempty.
    { revert Hout. unfold toggle. cbv zeta.
      destruct (checkSum g target (nextSelection prev i)); simpl; done. }
    by rewrite Hempty.
Qed.

(** C7.  While the game is neither over nor paused, a click after which
    the selection sums to strictly more than the target ends in EXCEEDED
    and changes the selection only, which becomes empty: the grid, the
    score and the target are the same, and no success callback is
    scheduled, so no block will be removed. *)
Theorem exceeded_only_resets_selection (block : Block) (st : State) :
  isGameOver st = false →
  isPaused st = false →
  currentSum (grid st) (nextSelection (selectedIds st) (id block))
    > targetSum st →
  (toggle (grid st) (targetSum st) (selectedIds st) (id block)).2 = EXCEEDED ∧
  handleBlockClick block st = setSelectedIds [] st ∧
  selectedIds (handleBlockClick block st) = [] ∧
  grid (handleBlockClick block st) = grid st ∧
  score (handleBlockClick block st) = score st ∧
  targetSum (handleBlockClick block st) = targetSum st ∧
  pending (handleBlockClick block st) = pending st.
Proof.
  intros Hover Hpause Hgt.
  unfold handleBlockClick, toggle. rewrite Hover, Hpause. cbv zeta. simpl.
  sum_cases (grid st) (targetSum st)
            (nextSelection (selectedIds st) (id block)); try lia.
  by destruct st.
Qed.

(** C9.  An id that no live block carries resolves to nothing and adds 0
    to the sum: a selection sums to the same with or without it.  The
    click handler is total, so a click goes through whatever ids the
    selection holds. *)
Theorem unknown_id_contributes_zero (g : Grid) (i : string) :
  i ∉ liveIds g →
  findBlock g i = None ∧
  valueOrZero (findBlock g i) = 0 ∧
  (∀ ids1 ids2,
     currentSum g (ids1 ++ i :: ids2) = currentSum g (ids1 ++ ids2)) ∧
  (∀ (st : State) (block : Block),
     grid st = g →
     i ∈ nextSelection (selectedIds st) (id block) →
     ∃ st', step st (Click block) = Some st').
Proof.
  intros Hni. pose proof (findBlock_unknown g i Hni) as Hf.
  split; [done|]. split; [by rewrite Hf|]. split.
  - intros ids1 ids2. rewrite !currentSum_app, currentSum_cons, Hf. simpl. lia.
  - intros st block _ _. by eexists.
Qed.

(** ** Gravity *)

Lemma blocksOf_cons_Some (b : Block) (cells : list Cell) :
  blocksOf (Some b :: cells) = b :: blocksOf cells.
Proof. done. Qed.

Lemma blocksOf_cons_None (cells : list Cell) :
  blocksOf (None :: cells) = blocksOf cells.
Proof. done. Qed.

Lemma blocksOf_length_le (cells : list Cell) :
  (length (blocksOf cells) ≤ length cells)%nat.
Proof.
  induction cells as [|[b|] cells IH]; [done| |].
  - rewrite blocksOf_cons_Some. simpl. lia.
  - rewrite blocksOf_cons_None. simpl. lia.
Qed.

Lemma blocksOf_app (l1 l2 : list Cell) :
  blocksOf (l1 ++ l2) = blocksOf l1 ++ blocksOf l2.
Proof. apply omap_app. Qed.

Lemma blocksOf_replicate_None (n : nat) : blocksOf (replicate n None) = [].
Proof. induction n as [|n IH]; [done|]. by simpl. Qed.

Lemma blocksOf_Some (bs : list Block) : blocksOf (Some <$> bs) = bs.
Proof.
  induction bs as [|b bs IH]; [done|].
  rewrite fmap_cons, blocksOf_cons_Some. by rewrite IH.
Qed.

Lemma blocksOf_settled (cells : list Cell) :
  blocksOf (settled cells) = blocksOf cells.
Proof.
  unfold settled.
  by rewrite blocksOf_app, blocksOf_replicate_None, blocksOf_Some.
Qed.

Lemma insert_at_length {A} (pre rest : list A) (x v : A) (r : nat) :
  length pre = r → <[r := v]> (pre ++ x :: rest) = pre ++ v :: rest.
Proof.
  intros <-. rewrite insert_app_r_alt by lia.
  by replace (length pre - length pre)%nat with 0%nat by lia.
Qed.

Lemma insert_last_of_replicate {A} (pre rest : list A) (x y : A) (r m : nat) :
  length pre = r →
  <[(r + m)%nat := x]> (pre ++ replicate (S m) y ++ rest)
  = pre ++ replicate m y ++ x :: rest.
Proof.
  intros <-. rewrite insert_app_r_alt by lia.
  replace (length pre + m - length pre)%nat with m by lia. f_equal.
  rewrite replicate_S_end, <- app_assoc. simpl.
  apply insert_at_length, length_replicate.
Qed.

Lemma column_length (c : nat) (g : Grid) : length (column c g) = length g.
Proof. apply length_fmap. Qed.

Lemma readCell_column (g : Grid) (r c : nat) (cell : Cell) :
  rectangular g → (c < GRID_COLS)%nat →
  column c g !! r = Some cell →
  readCell g r c = Some cell.
Proof.
  intros [_ Hrows] Hc. unfold column, readCell.
  rewrite list_lookup_fmap. destruct (g !! r) as [row|] eqn:Hr; [|done].
  simpl. intros [= <-]. apply list_lookup_lookup_total_lt.
  rewrite Forall_lookup in Hrows. rewrite (Hrows r row Hr). done.
Qed.

Lemma writeCell_column (g : Grid) (r c : nat) (v : Cell) :
  rectangular g → (c < GRID_COLS)%nat → (r < GRID_ROWS)%nat →
  ∃ g', writeCell g r c v = Some g' ∧
        rectangular g' ∧
        column c g' = <[r := v]> (column c g) ∧
        ∀ c', c' ≠ c → column c' g' = column c' g.
Proof.
  intros [Hlen Hrows] Hc Hr. unfold writeCell.
  destruct (lookup_lt_is_Some_2 g r) as [row Hrow]; [lia|].
  rewrite Hrow. simpl.
  assert (length row = GRID_COLS) as Hw.
  { rewrite Forall_lookup in Hrows. by apply (Hrows r). }
  unfold arr_set. rewrite decide_True by lia. simpl.
  eexists. split; [reflexivity|]. split; [|split].
  - split; [by rewrite length_insert|].
    apply Forall_insert; [done|]. by rewrite length_insert.
  - unfold column. rewrite list_fmap_insert. f_equal.
    apply list_lookup_total_insert_eq. lia.
  - intros c' Hne. unfold column. rewrite list_fmap_insert.
    rewrite list_lookup_total_insert_ne by done.
    apply list_insert_id. rewrite list_lookup_fmap, Hrow. done.
Qed.

(** The column being settled, once rows [n] and below are done: rows
    above [n] as they were, then empty cells, then the blocks met so
    far. *)
Lemma settleRows_spec (c : nat) (col0 : list Cell) (n : nat)
    (g : Grid) (e : Z) :
  (c < GRID_COLS)%nat → length col0 = GRID_ROWS → (n ≤ GRID_ROWS)%nat →
  rectangular g →
  let bs := blocksOf (drop n col0) in
  column c g
    = take n col0
      ++ replicate (GRID_ROWS - n - length bs)%nat None ++ (Some <$> bs) →
  e = Z.of_nat GRID_ROWS - 1 - Z.of_nat (length bs) →
  ∃ g' e', settleRows c n (g, e) = Some (g', e') ∧
           rectangular g' ∧
           column c g' = settled col0 ∧
           ∀ c', c' ≠ c → column c' g' = column c' g.
Proof.
  intros Hc Hlen0. revert g e.
  induction n as [|r IH]; intros g e Hn Hrect bs Hcol He; subst bs.
  - exists g, e. split; [done|]. split; [done|]. split; [|done].
    rewrite Hcol. unfold settled. rewrite drop_0, take_0, Hlen0. simpl.
    by rewrite Nat.sub_0_r.
  - destruct (lookup_lt_is_Some_2 col0 r) as [cell Hcell]; [lia|].
    pose proof (blocksOf_length_le (drop (S r) col0)) as Hk.
    rewrite length_drop in Hk.
    assert (length (take r col0) = r) as Htake.
    { apply length_take_le. lia. }
    rewrite (take_S_r _ _ _ Hcell), <- app_assoc in Hcol. simpl in Hcol.
    assert (column c g !! r = Some cell) as Hread.
    { rewrite Hcol. rewrite lookup_app_r by lia.
      by replace (r - length (take r col0))%nat with 0%nat by lia. }
    simpl. rewrite (readCell_column g r c cell Hrect Hc Hread). simpl.
    destruct cell as [temp|].
    + destruct (writeCell_column g r c None Hrect Hc) as (g1 & -> & Hr1 & Hc1 & Ho1);
        [lia|]. simpl.
      unfold writeCellZ. rewrite decide_False by lia.
      destruct (writeCell_column g1 (Z.to_nat e) c (Some temp) Hr1 Hc)
        as (g2 & -> & Hr2 & Hc2 & Ho2); [lia|]. simpl.
      destruct (IH g2 (e - 1)) as (g' & e' & Hrun & Hr' & Hc' & Ho');
        [lia|done| | |].
      * rewrite Hc2, Hc1, Hcol.
        rewrite (insert_at_length _ _ _ _ r Htake).
        rewrite (drop_S _ _ _ Hcell), blocksOf_cons_Some. simpl.
        set (k := length (blocksOf (drop (S r) col0))) in *.
        replace (Z.to_nat e) with (r + (GRID_ROWS - S r - k))%nat by lia.
        change (None :: replicate (GRID_ROWS - S r - k)%nat None
                ++ (Some <$> blocksOf (drop (S r) col0)))
          with (replicate (S (GRID_ROWS - S r - k)) (@None Block)
                ++ (Some <$> blocksOf (drop (S r) col0))).
        rewrite (insert_last_of_replicate _ _ _ _ r _ Htake).
        by replace (GRID_ROWS - r - S k)%nat with (GRID_ROWS - S r - k)%nat
          by lia.
      * rewrite (drop_S _ _ _ Hcell), blocksOf_cons_Some. simpl length.
        lia.
      * exists g', e'. split; [done|]. split; [done|]. split; [done|].
        intros c' Hne. by rewrite Ho', Ho2, Ho1.
    + destruct (IH g e) as (g' & e' & Hrun & Hr' & Hc' & Ho');
        [lia|done| | |].
      * rewrite Hcol. rewrite (drop_S _ _ _ Hcell), blocksOf_cons_None.
        set (k := length (blocksOf (drop (S r) col0))) in *.
        replace (GRID_ROWS - r - k)%nat with (S (GRID_ROWS - S r - k)) by lia.
        done.
      * rewrite (drop_S _ _ _ Hcell), blocksOf_cons_None. done.
      * exists g', e'. done.
Qed.

Lemma settleColumn_spec (c : nat) (g : Grid) :
  rectangular g → (c < GRID_COLS)%nat →
  ∃ g', settleColumn c g = Some g' ∧
        rectangular g' ∧
        column c g' = settled (column c g) ∧
        ∀ c', c' ≠ c → column c' g' = column c' g.
Proof.
  intros Hrect Hc. unfold settleColumn.
  assert (length (column c g) = GRID_ROWS) as Hlen.
  { rewrite column_length. apply Hrect. }
  destruct (settleRows_spec c (column c g) GRID_ROWS g
              (Z.of_nat GRID_ROWS - 1))
    as (g' & e' & -> & Hr' & Hc' & Ho'); try done.
  - rewrite take_ge, drop_ge by lia. simpl.
    by rewrite Nat.sub_diag, app_nil_r.
  - rewrite drop_ge by lia. simpl. lia.
  - by exists g'.
Qed.

(** The outer loop: the columns it has visited are settled, the others
    are as they were. *)
Lemma settleColumns_spec (n c0 : nat) (g : Grid) :
  rectangular g → (c0 + n ≤ GRID_COLS)%nat →
  ∃ g', settleColumns n c0 g = Some g' ∧
        rectangular g' ∧
        ∀ c, column c g' = if decide (c0 ≤ c < c0 + n)%nat
                           then settled (column c g) else column c g.
Proof.
  revert c0 g. induction n as [|n IH]; intros c0 g Hrect Hn.
  - exists g. split; [done|]. split; [done|].
    intros c. case_decide; [lia|done].
  - simpl.
    destruct (settleColumn_spec c0 g Hrect) as (g1 & -> & Hr1 & Hc1 & Ho1);
      [lia|]. simpl.
    destruct (IH (c0 + 1)%nat g1 Hr1) as (g' & -> & Hr' & Hall); [lia|].
    exists g'. split; [done|]. split; [done|].
    intros c. rewrite Hall. destruct (decide (c = c0)) as [->|Hne].
    + rewrite decide_False by lia. rewrite decide_True by lia. done.
    + rewrite (Ho1 c Hne). repeat case_decide; (done || lia).
Qed.

(** C4.  On a grid of the configured shape the gravity pass completes
    and returns a grid of the same shape in which every column is
    determined by the same column of the input alone: it holds the blocks
    of that column in their former top-to-bottom order, none lost, none
    added, packed against the bottom row, and only empty cells above
    them. *)
Theorem gravity_settles_each_column (g : Grid) :
  rectangular g →
  ∃ g', applyGravity g = Some g' ∧
        rectangular g' ∧
        ∀ c, (c < GRID_COLS)%nat →
             blocksOf (column c g') = blocksOf (column c g) ∧
             column c g'
             = replicate (GRID_ROWS - length (blocksOf (column c g)))%nat None
               ++ (Some <$> blocksOf (column c g)).
Proof.
  intros Hrect. unfold applyGravity.
  destruct (settleColumns_spec GRID_COLS 0 g Hrect) as (g' & -> & Hr' & Hall);
    [lia|].
  exists g'. split; [done|]. split; [done|]. intros c Hc.
  rewrite Hall, decide_True by lia. split; [apply blocksOf_settled|].
  unfold settled. rewrite column_length. by rewrite (proj1 Hrect).
Qed.

(** ** Counting blocks by columns *)

Lemma sum_list_with_add {A} (f h : A → nat) (l : list A) :
  sum_list_with (λ x, f x + h x)%nat l
  = (sum_list_with f l + sum_list_with h l)%nat.
Proof. induction l as [|x l IH]; simpl; lia. Qed.

Lemma sum_list_with_seq_S (f : nat → nat) (j n : nat) :
  sum_list_with f (seq (S j) n) = sum_list_with (λ c, f (S c)) (seq j n).
Proof. revert j. induction n as [|n IH]; intros j; simpl; [done|]. by rewrite IH. Qed.

Lemma sum_list_with_ext_seq (f h : nat → nat) (j n : nat) :
  (∀ c, f c = h c) → sum_list_with f (seq j n) = sum_list_with h (seq j n).
Proof.
  intros Hfh. revert j. induction n as [|n IH]; intros j; simpl; [done|].
  by rewrite Hfh, IH.
Qed.

Lemma blocksOf_cons_length (x : Cell) (cells : list Cell) :
  length (blocksOf (x :: cells))
  = (length (blocksOf [x]) + length (blocksOf cells))%nat.
Proof. by destruct x. Qed.

Lemma row_count (row : Row) :
  sum_list_with (λ c, length (blocksOf [row !!! c])) (seq 0 (length row))
  = length (blocksOf row).
Proof.
  induction row as [|x row IH]; [done|].
  rewrite blocksOf_cons_length. simpl length at 1. simpl seq.
  simpl sum_list_with. rewrite sum_list_with_seq_S. f_equal. exact IH.
Qed.

Lemma liveBlocks_by_columns (g : Grid) (w : nat) :
  Forall (λ row : Row, length row = w) g →
  length (liveBlocks g)
  = sum_list_with (λ c, length (blocksOf (column c g))) (seq 0 w).
Proof.
  induction 1 as [|row g Hrow _ IH].
  - unfold liveBlocks, column. simpl. induction (seq 0 w); simpl; lia.
  - unfold liveBlocks, flat in *. simpl concat.
    rewrite blocksOf_app, length_app, IH, <- Hrow, <- row_count.
    rewrite <- sum_list_with_add. apply sum_list_with_ext_seq. intros c.
    unfold column. rewrite fmap_cons. symmetry. apply blocksOf_cons_length.
Qed.

Lemma blocksOf_clearCell (ids : list string) (cells : list Cell) :
  blocksOf (clearCell ids <$> cells)
  = filter (λ b, id b ∉ ids) (blocksOf cells).
Proof.
  induction cells as [|[b|] cells IH]; [done| |].
  - rewrite fmap_cons, blocksOf_cons_Some, filter_cons. unfold clearCell at 1.
    case_bool_decide; case_decide; try done;
      first [ by rewrite blocksOf_cons_Some, IH
            | rewrite blocksOf_cons_None; exact IH ].
  - by rewrite fmap_cons.
Qed.

Lemma flat_map_map (f : Cell → Cell) (g : Grid) :
  flat (map (map f) g) = f <$> flat g.
Proof.
  unfold flat. induction g as [|row g IH]; [done|].
  simpl. by rewrite IH, fmap_app.
Qed.

Lemma filter_split_length {A} (P : A → Prop) `{!∀ x, Decision (P x)}
    (l : list A) :
  (length (filter P l) + length (filter (λ x, ¬ P x) l))%nat = length l.
Proof.
  rewrite <- length_app. apply Permutation_length, filter_app_complement.
Qed.

(** What [removeBlocks] does to the number of live blocks: on a grid of
    the configured shape it completes, keeps the shape, and takes out
    exactly the [clearedBy ids] blocks whose id is listed. *)
Lemma removeBlocks_takes_out (ids : list string) (g : Grid) :
  rectangular g →
  ∃ g', removeBlocks_updater ids g = Some g' ∧
        rectangular g' ∧
        (length (liveBlocks g') + clearedBy ids g)%nat = length (liveBlocks g).
Proof.
  intros [Hlen Hrows]. unfold removeBlocks_updater.
  set (g1 := map (map (clearCell ids)) g).
  assert (rectangular g1) as Hrect1.
  { split; [unfold g1; by rewrite length_map|].
    unfold g1. apply Forall_fmap. eapply Forall_impl; [exact Hrows|].
    intros row Hrow. simpl. by rewrite length_map. }
  destruct (settleColumns_spec GRID_COLS 0 g1 Hrect1) as (g' & Hrun & Hr' & Hall);
    [lia|].
  exists g'. split; [done|]. split; [done|].
  rewrite (liveBlocks_by_columns g' GRID_COLS (proj2 Hr')).
  rewrite (sum_list_with_ext_seq _
             (λ c, length (blocksOf (settled (column c g1))))).
  2:{ intros c. rewrite Hall. case_decide; [done|].
      by rewrite blocksOf_settled. }
  rewrite (sum_list_with_ext_seq _ (λ c, length (blocksOf (column c g1)))).
  2:{ intros c. by rewrite blocksOf_settled. }
  rewrite <- (liveBlocks_by_columns g1 GRID_COLS (proj2 Hrect1)).
  unfold liveBlocks at 1, g1. rewrite flat_map_map, blocksOf_clearCell.
  fold (liveBlocks g). unfold clearedBy.
  rewrite Nat.add_comm.
  apply (filter_split_length (λ b, id b ∈ ids)).
Qed.

(** ** Score *)

Lemma addNewRow_score (st st' : State) :
  addNewRow st = Some st' → score st' = score st.
Proof.
  unfold addNewRow.
  destruct (addNewRow_updater (grid st) (rng st)) as [[[g r] over]|]; [|done].
  intros [= <-]. by destruct over, st.
Qed.

Lemma handleBlockClick_score (block : Block) (st : State) :
  score (handleBlockClick block st) = score st.
Proof.
  unfold handleBlockClick. destruct (isGameOver st || isPaused st); [done|].
  destruct (toggle _ _ _ _) as [sel []]; by destruct st.
Qed.

Lemma successCallback_score (next : list string) (m : option GameMode)
    (st st' : State) :
  successCallback next m st = Some st' →
  score st' = score st + Z.of_nat (length next) * 10.
Proof.
  unfold successCallback, removeBlocks.
  destruct (removeBlocks_updater next (grid st)) as [g|]; [|done]. simpl.
  unfold generateTarget. simpl. destruct (drawTarget (rng st)) as [t r].
  case_decide.
  - intros Hadd%addNewRow_score. rewrite Hadd. done.
  - by intros [= <-].
Qed.

Lemma tick_score (st st' : State) : tick st = Some st' → score st' = score st.
Proof.
  unfold tick. destruct (_ && _); [|by intros [= <-]].
  destruct (timeLeft st <=? 1).
  - destruct (addNewRow st) as [st1|] eqn:Hadd; [|done]. simpl.
    intros [= <-]. apply addNewRow_score in Hadd. by destruct st1.
  - intros [= <-]. by destruct st.
Qed.

(** The ids of a success callback about to run, if [e] runs one. *)
Lemma step_score (st st' : State) (e : Event) :
  step st e = Some st' →
  score st' = score st
              + match e, pending st with
                | Timeout, (next, _) :: _ => Z.of_nat (length next) * 10
                | _, _ => 0
                end.
Proof.
  destruct e as [block| | |]; simpl.
  - intros [= <-]. rewrite handleBlockClick_score. lia.
  - destruct (pending st) as [|[next m] rest].
    + intros [= <-]. lia.
    + intros Hcb%successCallback_score. rewrite Hcb. by destruct st.
  - intros Ht%tick_score. lia.
  - intros [= <-]. destruct st. simpl. lia.
Qed.

Lemma filter_ids_length (ids : list string) (bs : list Block) :
  length (filter (λ b, id b ∈ ids) bs)
  = length (filter (λ i, i ∈ ids) (id <$> bs)).
Proof.
  induction bs as [|b bs IH]; [done|].
  rewrite fmap_cons, !filter_cons.
  destruct (decide (id b ∈ ids)); simpl; by rewrite IH.
Qed.

(** A selection that names blocks one by one clears as many blocks as it
    has ids. *)
Lemma clearedBy_namesBlocks (ids : list string) (g : Grid) :
  namesBlocks ids g → clearedBy ids g = length ids.
Proof.
  intros (Hnd & Hsub & Hlive). unfold clearedBy.
  rewrite filter_ids_length. fold (liveIds g).
  apply Permutation_length, NoDup_Permutation; [by apply NoDup_filter|done|].
  intros i. rewrite list_elem_of_filter. split; [by intros [? _]|].
  intros Hi. split; [done|]. by apply Hsub.
Qed.

(** The ordinary course of a match meets [matchesLive]: when no callback
    is pending, the selection names live blocks one by one and the click
    is on a live block, the callback that the click may schedule, run
    next, finds its blocks in the grid. *)
Lemma click_then_callback_live (block : Block) (st : State) :
  pending st = [] →
  namesBlocks (selectedIds st) (grid st) →
  id block ∈ liveIds (grid st) →
  matchesLive st [Click block; Timeout].
Proof.
  intros Hpend (Hnd & Hsub & Hlive) Hblock. simpl. split; [done|]. split.
  - unfold handleBlockClick. destruct (isGameOver st || isPaused st).
    { by rewrite Hpend. }
    unfold toggle. cbv zeta.
    destruct (checkSum _ _ _); destruct st; simpl in *; subst; try done.
    unfold namesBlocks, nextSelection. case_bool_decide as Hin.
    + split; [by apply NoDup_filter|]. split; [|done].
      intros x [_ Hx]%list_elem_of_filter. by apply Hsub.
    + split; [|split; [|done]].
      * apply NoDup_app. split; [done|]. split; [|apply NoDup_singleton].
        intros x Hx ->%list_elem_of_singleton. done.
      * intros x [Hx| ->%list_elem_of_singleton]%elem_of_app; [by apply Hsub|done].
  - by destruct (match pending (handleBlockClick block st) with
                 | [] => _ | _ => _ end).
Qed.

Lemma run_score_mono (st st' : State) (evs : list Event) :
  run st evs = Some st' → score st ≤ score st'.
Proof.
  revert st. induction evs as [|e evs IH]; intros st; simpl.
  - intros [= <-]. lia.
  - destruct (step st e) as [st1|] eqn:Hstep; [|done]. simpl.
    intros Hrun%IH. apply step_score in Hstep.
    destruct e, (pending st) as [|[next m] rest]; lia.
Qed.

Lemma run_score (st st' : State) (evs : list Event) :
  run st evs = Some st' →
  matchesLive st evs →
  score st' = score st + 10 * Z.of_nat (sum_list (clearedLog st evs)).
Proof.
  revert st. induction evs as [|e evs IH]; intros st; simpl.
  - intros [= <-] _. lia.
  - destruct (step st e) as [st1|] eqn:Hstep; [|done]. simpl.
    intros Hrun [Hhere Hrest]. rewrite (IH st1 Hrun Hrest).
    apply step_score in Hstep. rewrite Hstep.
    destruct e, (pending st) as [|[next m] rest]; simpl; try lia.
    rewrite (clearedBy_namesBlocks _ _ Hhere). lia.
Qed.

Lemma initGame_score (m : GameMode) (st0 st1 : State) :
  initGame m st0 = Some st1 → score st1 = 0.
Proof.
  unfold initGame. destruct (fillRows _ _ _) as [s|]; [|done]. simpl.
  destruct (drawTarget s.2) as [t r]. by intros [= <-].
Qed.

(** The score of a session in which every success callback finds its
    blocks in the grid: it starts at 0, grows by 10 for each block that a
    callback clears, and never goes down. *)
Lemma score_is_ten_per_cleared_block
    (m : GameMode) (st0 st1 st : State) (evs : list Event) :
  initGame m st0 = Some st1 →
  run st1 evs = Some st →
  matchesLive st1 evs →
  score st1 = 0 ∧
  score st = 10 * Z.of_nat (sum_list (clearedLog st1 evs)) ∧
  (∀ evs1 evs2 evs3 earlier later,
     evs = evs1 ++ evs2 ++ evs3 →
     run st1 evs1 = Some earlier →
     run earlier evs2 = Some later →
     0 ≤ score earlier ≤ score later) ∧
  (∀ (s s' : State) next mo rest,
     pending s = (next, mo) :: rest →
     namesBlocks next (grid s) →
     step s Timeout = Some s' →
     score s' = score s + 10 * Z.of_nat (clearedBy next (grid s))).
Proof.
  intros Hinit Hrun Hlive. pose proof (initGame_score m st0 st1 Hinit) as H0.
  split; [done|]. split; [|split].
  - rewrite (run_score st1 st evs Hrun Hlive). lia.
  - intros evs1 evs2 evs3 earlier later _ Hearlier Hlater.
    apply run_score_mono in Hearlier, Hlater. lia.
  - intros s s' next mo rest Hp Hnames Hstep%step_score.
    rewrite Hp in Hstep. rewrite (clearedBy_namesBlocks _ _ Hnames). lia.
Qed.

(** ** Grids by columns *)

Lemma grid_eq_by_columns (g g' : Grid) :
  rectangular g → rectangular g' →
  (∀ c, (c < GRID_COLS)%nat → column c g = column c g') →
  g = g'.
Proof.
  intros [Hl Hr] [Hl' Hr'] Hcols. apply list_eq. intros r.
  destruct (g !! r) as [row|] eqn:Hrow.
  - destruct (lookup_lt_is_Some_2 g' r) as [row' Hrow'].
    { apply lookup_lt_Some in Hrow. lia. }
    rewrite Hrow'. f_equal.
    rewrite Forall_lookup in Hr. rewrite Forall_lookup in Hr'.
    pose proof (Hr r row Hrow) as Hw. pose proof (Hr' r row' Hrow') as Hw'.
    apply list_eq. intros c. destruct (decide (c < GRID_COLS)%nat) as [Hc|Hc].
    + rewrite (list_lookup_lookup_total_lt row c) by lia.
      rewrite (list_lookup_lookup_total_lt row' c) by lia. f_equal.
      pose proof (f_equal (λ col : list Cell, col !! r) (Hcols c Hc)) as Heq.
      simpl in Heq. unfold column in Heq.
      rewrite !list_lookup_fmap, Hrow, Hrow' in Heq. simpl in Heq.
      by injection Heq.
    + rewrite !lookup_ge_None_2 by lia. done.
  - apply lookup_ge_None in Hrow. symmetry. apply lookup_ge_None. lia.
Qed.

Lemma settled_length (cells : list Cell) :
  length (settled cells) = length cells.
Proof.
  unfold settled. rewrite length_app, length_replicate, length_fmap.
  pose proof (blocksOf_length_le cells). lia.
Qed.

Lemma settled_idem (cells : list Cell) : settled (settled cells) = settled cells.
Proof.
  unfold settled at 1. by rewrite settled_length, blocksOf_settled.
Qed.

Lemma column_map_map (f : Cell → Cell) (c : nat) (g : Grid) :
  f None = None → column c (map (map f) g) = f <$> column c g.
Proof.
  intros HfN. unfold column. rewrite <- !list_fmap_compose.
  apply list_fmap_ext. intros i row _. simpl.
  destruct (decide (c < length row)%nat) as [Hc|Hc].
  - apply list_lookup_total_correct. change (map f row) with (f <$> row).
    rewrite list_lookup_fmap. by rewrite (list_lookup_lookup_total_lt row c).
  - rewrite !list_lookup_total_alt.
    change (map f row) with (f <$> row). rewrite list_lookup_fmap.
    rewrite !lookup_ge_None_2 by lia. simpl. done.
Qed.

Lemma elem_of_blocksOf (b : Block) (cells : list Cell) :
  b ∈ blocksOf cells ↔ Some b ∈ cells.
Proof.
  unfold blocksOf. rewrite list_elem_of_omap. split.
  - by intros (x & Hx & ->).
  - intros Hin. by exists (Some b).
Qed.

Lemma elem_of_concat {A} (x : A) (ls : list (list A)) :
  x ∈ concat ls ↔ ∃ l, x ∈ l ∧ l ∈ ls.
Proof.
  induction ls as [|l ls IH]; simpl.
  - split; [by intros ?%elem_of_nil|]. by intros (l & _ & ?%elem_of_nil).
  - rewrite elem_of_app, IH. split.
    + intros [Hx|(l' & Hx & Hl')].
      * exists l. split; [done|]. apply list_elem_of_here.
      * exists l'. split; [done|]. by apply list_elem_of_further.
    + intros (l' & Hx & [->|Hl']%elem_of_cons); [by left|].
      right. by exists l'.
Qed.

Lemma liveBlocks_by_column (g : Grid) (b : Block) :
  rectangular g →
  b ∈ liveBlocks g ↔ ∃ c, (c < GRID_COLS)%nat ∧ b ∈ blocksOf (column c g).
Proof.
  intros [_ Hrows]. unfold liveBlocks, flat.
  rewrite elem_of_blocksOf. rewrite Forall_lookup in Hrows. split.
  - intros (row & Hcell & Hrow)%elem_of_concat.
    apply list_elem_of_lookup in Hrow as [r Hr].
    apply list_elem_of_lookup in Hcell as [c Hc].
    exists c. split.
    + apply lookup_lt_Some in Hc. by rewrite <- (Hrows r row Hr).
    + apply elem_of_blocksOf, list_elem_of_lookup. exists r.
      unfold column. rewrite list_lookup_fmap, Hr. simpl. f_equal.
      by apply list_lookup_total_correct.
  - intros (c & Hc & Hin). apply elem_of_blocksOf in Hin.
    apply list_elem_of_lookup in Hin as [r Hr]. unfold column in Hr.
    rewrite list_lookup_fmap in Hr.
    destruct (g !! r) as [row|] eqn:Hrow; [|done]. simpl in Hr.
    injection Hr as Hr. apply elem_of_concat. exists row. split.
    + apply list_elem_of_lookup. exists c. rewrite <- Hr.
      apply list_lookup_lookup_total_lt. by rewrite (Hrows r row Hrow).
    + apply list_elem_of_lookup. by exists r.
Qed.

Lemma clearCell_idem (ids : list string) (cell : Cell) :
  clearCell ids (clearCell ids cell) = clearCell ids cell.
Proof.
  destruct cell as [b|]; [|done]. simpl.
  case_bool_decide as Hin; [done|]. simpl. by rewrite bool_decide_eq_false_2.
Qed.

Lemma clearCell_settled (ids : list string) (cells : list Cell) :
  clearCell ids <$> settled (clearCell ids <$> cells)
  = settled (clearCell ids <$> cells).
Proof.
  rewrite <- (list_fmap_id (settled _)) at 2.
  apply list_fmap_ext. intros i cell Hcell%list_elem_of_lookup_2. simpl.
  unfold settled in Hcell. apply elem_of_app in Hcell as [Hcell|Hcell].
  - apply elem_of_replicate in Hcell as [-> _]. done.
  - apply list_elem_of_fmap in Hcell as (b & -> & Hb).
    apply elem_of_blocksOf, list_elem_of_fmap in Hb as (cell & Heq & _).
    rewrite Heq. apply clearCell_idem.
Qed.

(** The grid that [removeBlocks] computes, column by column. *)
Lemma removeBlocks_updater_columns (ids : list string) (g : Grid) :
  rectangular g →
  ∃ g', removeBlocks_updater ids g = Some g' ∧
        rectangular g' ∧
        ∀ c, (c < GRID_COLS)%nat →
             column c g' = settled (clearCell ids <$> column c g).
Proof.
  intros [Hlen Hrows]. unfold removeBlocks_updater, applyGravity.
  set (g1 := map (map (clearCell ids)) g).
  assert (rectangular g1) as Hrect1.
  { split; [unfold g1; by rewrite length_map|].
    unfold g1. apply Forall_fmap. eapply Forall_impl; [exact Hrows|].
    intros row Hrow. simpl. by rewrite length_map. }
  destruct (settleColumns_spec GRID_COLS 0 g1 Hrect1) as (g' & Hrun & Hr' & Hall);
    [lia|].
  exists g'. split; [done|]. split; [done|]. intros c Hc.
  rewrite Hall, decide_True by lia. unfold g1. by rewrite column_map_map.
Qed.

Lemma map_clearCell_absent (ids : list string) (g : Grid) :
  (∀ i, i ∈ ids → i ∉ liveIds g) → map (map (clearCell ids)) g = g.
Proof.
  intros Habs. rewrite <- (list_fmap_id g) at 2.
  apply list_fmap_ext. intros r row Hrow%list_elem_of_lookup_2. simpl.
  rewrite <- (list_fmap_id row) at 2.
  apply list_fmap_ext. intros c cell Hcell%list_elem_of_lookup_2. simpl.
  destruct cell as [b|]; [|done]. simpl.
  rewrite bool_decide_eq_false_2; [done|]. intros Hin.
  apply (Habs _ Hin). unfold liveIds. apply list_elem_of_fmap_2.
  apply elem_of_blocksOf, elem_of_concat. by exists row.
Qed.

(** X1.  Gravity is settled after one pass: on a grid of the configured
    shape the pass completes, and a second pass over its result changes
    nothing. *)
Theorem applyGravity_twice (g : Grid) :
  rectangular g →
  ∃ g', applyGravity g = Some g' ∧ applyGravity g' = Some g'.
Proof.
  intros Hrect. unfold applyGravity.
  destruct (settleColumns_spec GRID_COLS 0 g Hrect) as (g' & Hrun & Hr' & Hall);
    [lia|].
  exists g'. split; [done|].
  destruct (settleColumns_spec GRID_COLS 0 g' Hr') as (g2 & -> & Hr2 & Hall2);
    [lia|].
  f_equal. apply grid_eq_by_columns; [done|done|]. intros c Hc.
  rewrite Hall2, decide_True by lia. rewrite Hall, decide_True by lia.
  apply settled_idem.
Qed.

Lemma removeBlocks_updater_members (ids : list string) (g g' : Grid) :
  rectangular g → removeBlocks_updater ids g = Some g' →
  ∀ b, b ∈ liveBlocks g' ↔ b ∈ liveBlocks g ∧ id b ∉ ids.
Proof.
  intros Hrect Hrun.
  destruct (removeBlocks_updater_columns ids g Hrect) as (g2 & Hrun2 & Hr' & Hcols).
  rewrite Hrun in Hrun2. injection Hrun2 as <-.
  assert (∀ c, (c < GRID_COLS)%nat →
               blocksOf (column c g')
               = filter (λ b, id b ∉ ids) (blocksOf (column c g))) as Hblocks.
  { intros c Hc. by rewrite (Hcols c Hc), blocksOf_settled, blocksOf_clearCell. }
  intros b. rewrite (liveBlocks_by_column g' b Hr').
  rewrite (liveBlocks_by_column g b Hrect). split.
  - intros (c & Hc & Hin). rewrite (Hblocks c Hc) in Hin.
    apply list_elem_of_filter in Hin as [Hid Hin]. split; [|done]. by exists c.
  - intros [(c & Hc & Hin) Hid]. exists c. split; [done|].
    rewrite (Hblocks c Hc). by apply list_elem_of_filter.
Qed.

Lemma removeBlocks_updater_fixed (ids : list string) (g g' : Grid) :
  rectangular g → removeBlocks_updater ids g = Some g' →
  removeBlocks_updater ids g' = Some g'.
Proof.
  intros Hrect Hrun.
  destruct (removeBlocks_updater_columns ids g Hrect) as (g1 & Hrun1 & Hr' & Hcols).
  rewrite Hrun in Hrun1. injection Hrun1 as <-.
  destruct (removeBlocks_updater_columns ids g' Hr') as (g2 & -> & Hr2 & Hcols2).
  f_equal. apply grid_eq_by_columns; [done|done|]. intros c Hc.
  rewrite (Hcols2 c Hc), (Hcols c Hc), clearCell_settled. apply settled_idem.
Qed.

(** X2.  [removeBlocks] removes exactly the listed blocks.  On a grid of
    the configured shape the updater completes and keeps the shape; a
    block is in the new grid if and only if it was in the old one and its
    id is not listed; in every column the blocks that stay keep their
    order; and the number of live blocks drops by the number of blocks
    whose id is listed. *)
Theorem removeBlocks_removes_exactly (ids : list string) (g : Grid) :
  rectangular g →
  ∃ g', removeBlocks_updater ids g = Some g' ∧
        rectangular g' ∧
        (∀ b, b ∈ liveBlocks g' ↔ b ∈ liveBlocks g ∧ id b ∉ ids) ∧
        (∀ c, (c < GRID_COLS)%nat →
              blocksOf (column c g')
              = filter (λ b, id b ∉ ids) (blocksOf (column c g))) ∧
        (length (liveBlocks g') + clearedBy ids g)%nat
        = length (liveBlocks g).
Proof.
  intros Hrect.
  destruct (removeBlocks_updater_columns ids g Hrect) as (g' & Hrun & Hr' & Hcols).
  destruct (removeBlocks_takes_out ids g Hrect) as (g2 & Hrun2 & _ & Hcount).
  rewrite Hrun in Hrun2. injection Hrun2 as <-.
  exists g'. split; [done|]. split; [done|].
  split; [by apply (removeBlocks_updater_members ids g)|]. split; [|done].
  intros c Hc. by rewrite (Hcols c Hc), blocksOf_settled, blocksOf_clearCell.
Qed.

(** X3.  Removing the same ids a second time changes nothing: the grid
    that [removeBlocks] returns is a fixed point of [removeBlocks] for
    these ids. *)
Theorem removeBlocks_twice (ids : list string) (g : Grid) :
  rectangular g →
  ∃ g', removeBlocks_updater ids g = Some g' ∧
        removeBlocks_updater ids g' = Some g'.
Proof.
  intros Hrect.
  destruct (removeBlocks_updater_columns ids g Hrect) as (g' & Hrun & _).
  exists g'. split; [done|]. by apply (removeBlocks_updater_fixed ids g).
Qed.

(** X4.  When none of the ids is that of a live block, [removeBlocks]
    does what the gravity pass alone does; on a grid that gravity leaves
    as it is, it returns the grid unchanged. *)
Theorem removeBlocks_absent_ids (ids : list string) (g : Grid) :
  (∀ i, i ∈ ids → i ∉ liveIds g) →
  removeBlocks_updater ids g = applyGravity g ∧
  (applyGravity g = Some g → removeBlocks_updater ids g = Some g).
Proof.
  intros Habs. unfold removeBlocks_updater.
  rewrite (map_clearCell_absent ids g Habs). by split.
Qed.

(** ** Row insertion, continued *)

Lemma blocksOf_all_None (cells : list Cell) :
  Forall (λ cell, cell = None) cells → blocksOf cells = [].
Proof. induction 1 as [|cell cells -> _ IH]; [done|]. by rewrite blocksOf_cons_None. Qed.

(** Looking an id up among the blocks instead of among the cells. *)
Lemma findBlock_liveBlocks (g : Grid) (i : string) :
  findBlock g i = List.find (λ b, bool_decide (id b = i)) (liveBlocks g).
Proof.
  unfold findBlock, liveBlocks. induction (flat g) as [|[b|] cells IH]; [done| |].
  - rewrite blocksOf_cons_Some. simpl. by case_bool_decide.
  - rewrite blocksOf_cons_None. simpl. exact IH.
Qed.

Lemma find_app_found {A} (f : A → bool) (l1 l2 : list A) (x : A) :
  x ∈ l1 → f x = true → List.find f (l1 ++ l2) = List.find f l1.
Proof.
  induction l1 as [|y l1 IH]; [by intros ?%elem_of_nil|].
  intros [->|Hin]%elem_of_cons Hfx; simpl.
  - by rewrite Hfx.
  - destruct (f y); [done|]. by apply IH.
Qed.

(** The grid after an insertion on a free top row, in closed form. *)
Lemma addNewRow_shifted (st : State) (top : Row) :
  length (grid st) = GRID_ROWS →
  grid st !! 0%nat = Some top →
  existsb notNull top = false →
  addNewRow st
  = Some (setTimeLeft TIME_LIMIT
            (setRng (createRow GRID_COLS (rng st)).2
               (setGrid (drop 1 (grid st)
                         ++ [Some <$> (createRow GRID_COLS (rng st)).1]) st))).
Proof.
  intros Hlen Htop Hex.
  destruct (addNewRow_when_free st top Hlen Htop Hex)
    as (g' & -> & Hl & Hshift & Hlast).
  do 3 f_equal. f_equal. apply list_eq. intros r.
  assert (0 < GRID_ROWS)%nat as Hpos.
  { rewrite <- Hlen. apply lookup_lt_Some in Htop. lia. }
  assert (length (drop 1 (grid st)) = (GRID_ROWS - 1)%nat) as Hd.
  { rewrite length_drop. lia. }
  destruct (decide (r + 1 < GRID_ROWS)%nat) as [Hr|Hr].
  - rewrite (Hshift r Hr), lookup_app_l by lia. rewrite lookup_drop.
    f_equal. lia.
  - destruct (decide (r = GRID_ROWS - 1)%nat) as [->|Hne].
    + rewrite Hlast, lookup_app_r by lia. rewrite Hd.
      by replace (GRID_ROWS - 1 - (GRID_ROWS - 1))%nat with 0%nat by lia.
    + rewrite !lookup_ge_None_2; [done| |lia].
      rewrite length_app, Hd. simpl. lia.
Qed.

Lemma addNewRow_rectangular (st : State) :
  rectangular (grid st) → (0 < GRID_ROWS)%nat →
  ∃ st', addNewRow st = Some st' ∧ rectangular (grid st').
Proof.
  intros [Hlen Hrows] Hpos.
  destruct (lookup_lt_is_Some_2 (grid st) 0) as [top Htop]; [lia|].
  destruct (existsb notNull top) eqn:Hex.
  - rewrite (addNewRow_when_occupied st top Htop Hex).
    eexists. split; [reflexivity|]. by destruct st.
  - rewrite (addNewRow_shifted st top Hlen Htop Hex).
    eexists. split; [reflexivity|]. destruct st as [? g ? ? ? ? ? ? r ?].
    simpl in *. split.
    + rewrite length_app, length_drop. simpl. lia.
    + apply Forall_app. split; [by apply Forall_drop|].
      apply Forall_singleton. by rewrite length_fmap, createRow_length.
Qed.

(** Live blocks and lookups across an insertion on a free top row. *)
Lemma addNewRow_shifted_lookup (g : Grid) (top : Row) (fresh : list Block) :
  g !! 0%nat = Some top →
  Forall (λ cell, cell = None) top →
  let g' := drop 1 g ++ [Some <$> fresh] in
  liveBlocks g' = liveBlocks g ++ fresh ∧
  (∀ i, i ∈ liveIds g → findBlock g' i = findBlock g i) ∧
  (∀ sel, sel ⊆ liveIds g → currentSum g' sel = currentSum g sel).
Proof.
  intros Htop Hempty g'.
  assert (liveBlocks g' = liveBlocks g ++ fresh) as Hlive.
  { unfold g', liveBlocks, flat. rewrite concat_app. simpl. rewrite app_nil_r.
    rewrite blocksOf_app, blocksOf_Some. f_equal.
    destruct g as [|row rest]; [done|]. simpl in Htop.
    injection Htop as ->. simpl. rewrite drop_0.
    by rewrite blocksOf_app, (blocksOf_all_None top Hempty). }
  assert (∀ i, i ∈ liveIds g → findBlock g' i = findBlock g i) as Hfind.
  { intros i Hi. rewrite !findBlock_liveBlocks, Hlive.
    unfold liveIds in Hi. apply list_elem_of_fmap in Hi as (b & -> & Hb).
    apply (find_app_found _ _ _ b); [done|]. by apply bool_decide_eq_true. }
  split; [done|]. split; [done|].
  intros sel Hsel. induction sel as [|i sel IH]; [done|].
  rewrite !currentSum_cons, Hfind, IH; [done| |].
  - intros x Hx. apply Hsel. by apply list_elem_of_further.
  - apply Hsel. apply list_elem_of_here.
Qed.

(** X5.  A row insertion on a free top row keeps every block and every
    lookup: the live blocks afterwards are the former ones, in the same
    reading order, followed by the new row; an id that was live resolves
    to the same block as before, so every selection of live ids sums to
    what it did; the selection, the target, the score and the game-over
    flag are not touched. *)
Theorem addNewRow_keeps_blocks_and_sums (st : State) (top : Row) :
  length (grid st) = GRID_ROWS →
  grid st !! 0%nat = Some top →
  Forall (λ cell, cell = None) top →
  ∃ st', addNewRow st = Some st' ∧
         liveBlocks (grid st')
         = liveBlocks (grid st) ++ (createRow GRID_COLS (rng st)).1 ∧
         (∀ i, i ∈ liveIds (grid st) →
               findBlock (grid st') i = findBlock (grid st) i) ∧
         (∀ sel, sel ⊆ liveIds (grid st) →
                 currentSum (grid st') sel = currentSum (grid st) sel) ∧
         selectedIds st' = selectedIds st ∧
         targetSum st' = targetSum st ∧
         score st' = score st ∧
         isGameOver st' = isGameOver st.
Proof.
  intros Hlen Htop Hempty.
  pose proof (proj2 (existsb_notNull_false top) Hempty) as Hex.
  rewrite (addNewRow_shifted st top Hlen Htop Hex).
  eexists. split; [reflexivity|].
  destruct (addNewRow_shifted_lookup (grid st) top
              (createRow GRID_COLS (rng st)).1 Htop Hempty)
    as (Hlive & Hfind & Hsum).
  by destruct st.
Qed.

(** X6.  The game ends one insertion after the pile reaches the second
    row: when the top row is free and the row below it holds a block, a
    first [addNewRow] shifts that row to the top without raising the
    flag, and the next [addNewRow] raises the flag and leaves the grid as
    the first one made it. *)
Theorem addNewRow_twice_on_high_pile
    (st : State) (top second : Row) (cell : Cell) :
  length (grid st) = GRID_ROWS →
  grid st !! 0%nat = Some top →
  Forall (λ cell, cell = None) top →
  grid st !! 1%nat = Some second →
  cell ∈ second →
  cell ≠ None →
  ∃ st1 st2, addNewRow st = Some st1 ∧
             isGameOver st1 = isGameOver st ∧
             grid st1 !! 0%nat = Some second ∧
             addNewRow st1 = Some st2 ∧
             isGameOver st2 = true ∧
             grid st2 = grid st1.
Proof.
  intros Hlen Htop Hempty Hsecond Hin Hnn.
  pose proof (proj2 (existsb_notNull_false top) Hempty) as Hex.
  destruct (addNewRow_when_free st top Hlen Htop Hex)
    as (g' & Hrun & _ & Hshift & _).
  assert (g' !! 0%nat = Some second) as Hnew.
  { rewrite (Hshift 0%nat); [done|].
    apply lookup_lt_Some in Hsecond. lia. }
  eexists. eexists. split; [exact Hrun|]. split; [by destruct st|].
  split; [by destruct st|].
  assert (existsb notNull second = true) as Hocc.
  { apply existsb_notNull_true. by exists cell. }
  rewrite (addNewRow_when_occupied _ second); [|by destruct st|done].
  split; [reflexivity|]. by destruct st.
Qed.

(** ** Starting a game *)

(** Filling [n] cells of row [r] from column [c] on writes there, in
    order, the blocks that [createRow n] makes. *)
Lemma fillCells_spec (n r c : nat) (g : Grid) (rng0 : Rng) (row : Row) :
  g !! r = Some row → (c + n ≤ length row)%nat →
  fillCells n (Z.of_nat r) c (g, rng0)
  = Some (<[r := take c row ++ (Some <$> (createRow n rng0).1)
                  ++ drop (c + n) row]> g,
          (createRow n rng0).2).
Proof.
  revert c g rng0 row. induction n as [|n IH]; intros c g rng0 row Hrow Hlen.
  - simpl. rewrite Nat.add_0_r, take_drop. by rewrite list_insert_id.
  - simpl. destruct (createBlock None rng0) as [b rng1] eqn:Hb.
    unfold writeCellZ. rewrite decide_False by lia. rewrite Nat2Z.id.
    unfold writeCell. rewrite Hrow. simpl.
    unfold arr_set. rewrite decide_True by lia. simpl.
    assert (r < length g)%nat as Hr by (by apply lookup_lt_Some in Hrow).
    rewrite (IH (c + 1)%nat _ rng1 (<[c := Some b]> row)).
    + destruct (createRow n rng1) as [bs rng2]. simpl.
      rewrite list_insert_insert_eq.
      replace (c + 1 + n)%nat with (S (c + n)) by lia.
      replace (c + S n)%nat with (S (c + n)) by lia.
      replace (c + 1)%nat with (S c) by lia.
      rewrite (take_S_r _ _ (Some b)) by (apply list_lookup_insert_eq; lia).
      rewrite take_insert_ge by lia. rewrite drop_insert_lt by lia.
      rewrite <- app_assoc. done.
    + apply list_lookup_insert_eq. lia.
    + rewrite length_insert. lia.
Qed.

Lemma fillRows_spec (n r0 : nat) (g : Grid) (rng0 : Rng) :
  Forall (λ row : Row, length row = GRID_COLS) g →
  (r0 + n ≤ length g)%nat →
  ∃ g' rng1, fillRows n (Z.of_nat r0) (g, rng0) = Some (g', rng1) ∧
             length g' = length g ∧
             Forall (λ row : Row, length row = GRID_COLS) g' ∧
             (∀ r, (r < r0 ∨ r0 + n ≤ r)%nat → g' !! r = g !! r) ∧
             (∀ r, (r0 ≤ r < r0 + n)%nat →
                   ∃ bs, g' !! r = Some (Some <$> bs) ∧
                         length bs = GRID_COLS).
Proof.
  revert r0 g rng0. induction n as [|n IH]; intros r0 g rng0 Hrows Hlen.
  - exists g, rng0. split; [done|]. split; [done|]. split; [done|].
    split; [done|]. intros r Hr. lia.
  - simpl. destruct (lookup_lt_is_Some_2 g r0) as [row Hrow]; [lia|].
    assert (length row = GRID_COLS) as Hw.
    { rewrite Forall_lookup in Hrows. by apply (Hrows r0). }
    rewrite (fillCells_spec GRID_COLS r0 0 g rng0 row Hrow) by lia.
    rewrite take_0, drop_ge, app_nil_r by lia. simpl.
    set (fresh := (createRow GRID_COLS rng0).1).
    assert (length (Some <$> fresh) = GRID_COLS) as Hfresh.
    { unfold fresh. by rewrite length_fmap, createRow_length. }
    replace (Z.of_nat r0 + 1) with (Z.of_nat (r0 + 1)) by lia.
    destruct (IH (r0 + 1)%nat (<[r0 := Some <$> fresh]> g)
                 (createRow GRID_COLS rng0).2)
      as (g' & rng1 & -> & Hl & Hf & Hout & Hin).
    { by apply Forall_insert. }
    { rewrite length_insert. lia. }
    exists g', rng1. split; [done|]. split; [by rewrite Hl, length_insert|].
    split; [done|]. split.
    + intros r Hr. rewrite Hout by lia. apply list_lookup_insert_ne. lia.
    + intros r Hr. destruct (decide (r = r0)) as [->|Hne].
      * exists fresh. rewrite Hout by lia.
        rewrite list_lookup_insert_eq by lia. split; [done|].
        apply createRow_length.
      * apply Hin. lia.
Qed.

(** X7.  [initGame] with no more initial rows than the grid has rows
    completes and builds a grid of the configured shape whose upper
    [GRID_ROWS - INITIAL_ROWS] rows are empty and whose lower
    [INITIAL_ROWS] rows are full of blocks; it sets the mode, puts the
    score at 0, clears the game-over and pause flags and the selection,
    and winds the countdown to [TIME_LIMIT].  Success callbacks that were
    pending stay pending. *)
Theorem initGame_seeds_bottom_rows (m : GameMode) (st0 : State) :
  (INITIAL_ROWS ≤ GRID_ROWS)%nat →
  ∃ st1, initGame m st0 = Some st1 ∧
         rectangular (grid st1) ∧
         (∀ r, (r < GRID_ROWS - INITIAL_ROWS)%nat →
               grid st1 !! r = Some (replicate GRID_COLS None)) ∧
         (∀ r, (GRID_ROWS - INITIAL_ROWS ≤ r < GRID_ROWS)%nat →
               ∃ bs, grid st1 !! r = Some (Some <$> bs) ∧
                     length bs = GRID_COLS) ∧
         mode st1 = Some m ∧
         score st1 = 0 ∧
         isGameOver st1 = false ∧
         isPaused st1 = false ∧
         selectedIds st1 = [] ∧
         timeLeft st1 = TIME_LIMIT ∧
         pending st1 = pending st0.
Proof.
  intros Hle. unfold initGame.
  replace (Z.of_nat GRID_ROWS - Z.of_nat INITIAL_ROWS)
    with (Z.of_nat (GRID_ROWS - INITIAL_ROWS)) by lia.
  destruct (fillRows_spec INITIAL_ROWS (GRID_ROWS - INITIAL_ROWS)
              (replicate GRID_ROWS (replicate GRID_COLS None)) (rng st0))
    as (g' & rng1 & -> & Hl & Hf & Hout & Hin).
  { apply Forall_replicate, length_replicate. }
  { rewrite length_replicate. lia. }
  simpl. destruct (drawTarget rng1) as [t rng2].
  eexists. split; [reflexivity|]. simpl.
  rewrite length_replicate in Hl.
  split; [by split|]. split.
  { intros r Hr. rewrite Hout by lia. apply lookup_replicate_2. lia. }
  split; [|done].
  intros r Hr. apply Hin. lia.
Qed.

(** X8.  [initGame] with more initial rows than the grid has rows (and at
    least one column) does not complete: the first cell it fills is in a
    row of negative index, and [initialGrid[r]] is [undefined] there. *)
Theorem initGame_too_many_initial_rows (m : GameMode) (st0 : State) :
  (GRID_ROWS < INITIAL_ROWS)%nat →
  (0 < GRID_COLS)%nat →
  initGame m st0 = None.
Proof.
  intros Hlt Hcols. unfold initGame.
  destruct INITIAL_ROWS as [|n]; [lia|]. cbn [fillRows].
  destruct GRID_COLS as [|w]; [lia|]. cbn [fillCells snd fst].
  destruct (createBlock None (rng st0)) as [b rng1].
  unfold writeCellZ. by rewrite decide_True by lia.
Qed.

(** ** Sessions *)

Lemma run_app (st : State) (evs1 evs2 : list Event) :
  run st (evs1 ++ evs2) = st1 ← run st evs1; run st1 evs2.
Proof.
  revert st. induction evs1 as [|e evs1 IH]; intros st; [done|].
  simpl. destruct (step st e) as [st1|]; [|done]. simpl. apply IH.
Qed.

Lemma successCallback_rectangular (next : list string) (m : option GameMode)
    (st : State) :
  rectangular (grid st) → (0 < GRID_ROWS)%nat →
  ∃ st', successCallback next m st = Some st' ∧ rectangular (grid st').
Proof.
  intros Hrect Hpos. unfold successCallback, removeBlocks.
  destruct (removeBlocks_updater_columns next (grid st) Hrect)
    as (g' & -> & Hr' & _). simpl.
  unfold generateTarget. simpl. destruct (drawTarget (rng st)) as [t r].
  case_decide.
  - apply addNewRow_rectangular; done.
  - eexists. split; [reflexivity|]. done.
Qed.

Lemma step_rectangular (st : State) (e : Event) :
  rectangular (grid st) → (0 < GRID_ROWS)%nat →
  ∃ st', step st e = Some st' ∧ rectangular (grid st').
Proof.
  intros Hrect Hpos. destruct e as [block| | |]; simpl.
  - eexists. split; [reflexivity|]. unfold handleBlockClick.
    destruct (isGameOver st || isPaused st); [done|].
    destruct (toggle _ _ _ _) as [sel []]; by destruct st.
  - destruct (pending st) as [|[next m] rest]; [by eexists|].
    apply successCallback_rectangular; [by destruct st|done].
  - unfold tick. destruct (_ && _); [|by eexists].
    destruct (timeLeft st <=? 1).
    + destruct (addNewRow_rectangular st Hrect Hpos) as (st1 & -> & Hr1).
      simpl. eexists. split; [reflexivity|]. by destruct st1.
    + eexists. split; [reflexivity|]. by destruct st.
  - eexists. split; [reflexivity|]. by destruct st.
Qed.

(** X9.  No event faults on a grid of the configured shape, and every
    event keeps the shape: from a state whose grid has [GRID_ROWS >= 1]
    rows of [GRID_COLS] cells, every course of clicks, callbacks, ticks
    and pauses runs to its end and ends on such a grid. *)
Theorem run_keeps_shape (st : State) (evs : list Event) :
  rectangular (grid st) →
  (0 < GRID_ROWS)%nat →
  ∃ st', run st evs = Some st' ∧ rectangular (grid st').
Proof.
  intros Hrect Hpos. revert st Hrect.
  induction evs as [|e evs IH]; intros st Hrect; simpl.
  - by exists st.
  - destruct (step_rectangular st e Hrect Hpos) as (st1 & -> & Hr1).
    simpl. by apply IH.
Qed.

Lemma addNewRow_stays_over (st st' : State) :
  addNewRow st = Some st' → isGameOver st = true → isGameOver st' = true.
Proof.
  unfold addNewRow.
  destruct (addNewRow_updater (grid st) (rng st)) as [[[g r] over]|]; [|done].
  intros [= <-] Hover. by destruct over, st.
Qed.

Lemma step_stays_over (st st' : State) (e : Event) :
  step st e = Some st' → isGameOver st = true → isGameOver st' = true.
Proof.
  destruct e as [block| | |]; simpl.
  - intros [= <-] Hover. unfold handleBlockClick. by rewrite Hover.
  - destruct (pending st) as [|[next m] rest]; [by intros [= <-]|].
    unfold successCallback, removeBlocks. simpl.
    destruct (removeBlocks_updater next (grid st)) as [g|]; [|done]. simpl.
    unfold generateTarget. simpl. destruct (drawTarget (rng st)) as [t r].
    case_decide.
    + intros Hadd Hover. by apply (addNewRow_stays_over _ _ Hadd).
    + by intros [= <-].
  - intros Htick Hover. unfold tick in Htick. rewrite Hover in Htick.
    rewrite andb_false_r in Htick. simpl in Htick. by injection Htick as <-.
  - intros [= <-] Hover. by destruct st.
Qed.

(** X10.  The game-over flag is sticky: once it is raised, no click,
    callback, tick or pause lowers it again (only [initGame] does). *)
Theorem game_over_is_sticky (st st' : State) (evs : list Event) :
  run st evs = Some st' →
  isGameOver st = true →
  isGameOver st' = true.
Proof.
  revert st. induction evs as [|e evs IH]; intros st; simpl.
  - by intros [= <-].
  - destruct (step st e) as [st1|] eqn:Hstep; [|done]. simpl.
    intros Hrun Hover. apply (IH st1 Hrun).
    by apply (step_stays_over st st1 e).
Qed.

(** X11.  While the game is over or paused, clicks and ticks do nothing
    at all: any course of them leaves the state exactly as it was. *)
Theorem over_or_paused_ignores_input (st : State) (evs : list Event) :
  isGameOver st || isPaused st = true →
  Forall (λ e, gated e = true) evs →
  run st evs = Some st.
Proof.
  intros Hlock. induction 1 as [|e evs He _ IH]; [done|].
  cbn [run]. assert (step st e = Some st) as ->; [|exact IH].
  destruct e as [block| | |]; try done; simpl.
  - unfold handleBlockClick. by rewrite Hlock.
  - unfold tick. apply orb_true_iff in Hlock as [->| ->]; simpl;
      by rewrite ?andb_false_r.
Qed.

Lemma setTimeLeft_twice (a b : Z) (st : State) :
  setTimeLeft a (setTimeLeft b st) = setTimeLeft a st.
Proof. done. Qed.

Lemma addNewRow_after_countdown (x : Z) (st : State) :
  (st1 ← addNewRow (setTimeLeft x st); Some (setTimeLeft TIME_LIMIT st1))
  = addNewRow st.
Proof.
  unfold addNewRow. destruct st as [? g ? ? ? ? ? ? r ?]. simpl.
  destruct (addNewRow_updater g r) as [[[g' r'] over]|]; [|done].
  by destruct over.
Qed.

Lemma countdown_steps (k : nat) (st : State) :
  mode st = Some time → isGameOver st = false → isPaused st = false →
  Z.of_nat k < timeLeft st →
  run st (replicate k Tick) = Some (setTimeLeft (timeLeft st - Z.of_nat k) st).
Proof.
  revert st. induction k as [|k IH]; intros st Hmode Hover Hpause Hk.
  - simpl. rewrite Z.sub_0_r. by destruct st.
  - simpl. unfold tick. rewrite Hmode, Hover, Hpause. simpl.
    rewrite ?bool_decide_eq_true_2 by done. simpl.
    destruct (Z.leb_spec (timeLeft st) 1); [lia|]. simpl.
    rewrite IH; try (by destruct st). 2:{ destruct st; simpl in *; lia. }
    rewrite setTimeLeft_twice. do 2 f_equal. destruct st; simpl. lia.
Qed.

(** X12.  In time mode, while the game runs, a countdown at [t >= 1]
    takes exactly [t] ticks to insert a row: each of the first [t - 1]
    ticks only lowers the countdown by one, and the [t]-th does what
    [addNewRow] does (which winds the countdown back to [TIME_LIMIT]). *)
Theorem countdown_inserts_row_after_t_ticks (st : State) :
  mode st = Some time →
  isGameOver st = false →
  isPaused st = false →
  1 ≤ timeLeft st →
  (∀ k, Z.of_nat k < timeLeft st →
        run st (replicate k Tick)
        = Some (setTimeLeft (timeLeft st - Z.of_nat k) st)) ∧
  run st (replicate (Z.to_nat (timeLeft st)) Tick) = addNewRow st.
Proof.
  intros Hmode Hover Hpause Ht. split.
  - intros k Hk. by apply countdown_steps.
  - replace (Z.to_nat (timeLeft st)) with (Z.to_nat (timeLeft st) - 1 + 1)%nat
      by lia.
    rewrite replicate_add, run_app. rewrite countdown_steps by (done || lia).
    simpl. unfold tick. simpl. rewrite Hmode, Hover, Hpause. simpl.
    rewrite ?bool_decide_eq_true_2 by done. simpl.
    destruct (Z.leb_spec (timeLeft st - Z.of_nat (Z.to_nat (timeLeft st) - 1)) 1);
      [|lia].
    rewrite addNewRow_after_countdown. by destruct (addNewRow st).
Qed.

(** ** The selection along a session *)

Lemma click_selectionOk (block : Block) (st : State) :
  selectionOk st → id block ∈ liveIds (grid st) →
  selectionOk (handleBlockClick block st).
Proof.
  intros (Hnd & Hsub & Hsum) Hblock. unfold handleBlockClick.
  destruct (isGameOver st || isPaused st); [done|].
  unfold toggle. cbv zeta.
  sum_cases (grid st) (targetSum st)
            (nextSelection (selectedIds st) (id block));
    unfold selectionOk; destruct st as [? g t ? ? ? sel ? ? ?]; simpl in *.
  - split; [apply NoDup_nil_2|]. split; [|by left]. by intros x ?%elem_of_nil.
  - split; [apply NoDup_nil_2|]. split; [|by left]. by intros x ?%elem_of_nil.
  - split; [|split; [|by right]]; unfold nextSelection; case_bool_decide.
    + by apply NoDup_filter.
    + apply NoDup_app. split; [done|]. split; [|apply NoDup_singleton].
      intros x Hx ->%list_elem_of_singleton. done.
    + intros x [_ Hx]%list_elem_of_filter. by apply Hsub.
    + intros x [Hx| ->%list_elem_of_singleton]%elem_of_app; [by apply Hsub|done].
Qed.

Lemma addNewRow_selectionOk (st st' : State) :
  rectangular (grid st) → selectionOk st →
  addNewRow st = Some st' → selectionOk st'.
Proof.
  intros [Hlen _] (Hnd & Hsub & Hsum).
  destruct (grid st !! 0%nat) as [top|] eqn:Htop.
  2:{ unfold addNewRow, addNewRow_updater. by rewrite Htop. }
  destruct (existsb notNull top) eqn:Hex.
  - rewrite (addNewRow_when_occupied st top Htop Hex). intros [= <-].
    by destruct st.
  - rewrite (addNewRow_shifted st top Hlen Htop Hex). intros [= <-].
    apply existsb_notNull_false in Hex.
    destruct (addNewRow_shifted_lookup (grid st) top
                (createRow GRID_COLS (rng st)).1 Htop Hex)
      as (Hlive & _ & Hsame).
    unfold selectionOk. destruct st as [? g t ? ? ? sel ? r ?]. simpl in *.
    split; [done|]. split.
    + intros x Hx. unfold liveIds. rewrite Hlive, fmap_app.
      apply elem_of_app. left. by apply Hsub.
    + destruct Hsum as [->|Hlt]; [by left|]. right. by rewrite Hsame.
Qed.

Lemma addNewRow_selectedIds (st st' : State) :
  addNewRow st = Some st' → selectedIds st' = selectedIds st.
Proof.
  unfold addNewRow.
  destruct (addNewRow_updater (grid st) (rng st)) as [[[g r] over]|]; [|done].
  intros [= <-]. by destruct over, st.
Qed.

Lemma successCallback_selectedIds (next : list string) (m : option GameMode)
    (st st' : State) :
  successCallback next m st = Some st' → selectedIds st' = [].
Proof.
  unfold successCallback, removeBlocks.
  destruct (removeBlocks_updater next (grid st)) as [g|]; [|done]. simpl.
  unfold generateTarget. simpl. destruct (drawTarget (rng st)) as [t r].
  case_decide.
  - intros Hadd%addNewRow_selectedIds. by rewrite Hadd.
  - by intros [= <-].
Qed.

Lemma empty_selectionOk (st : State) : selectedIds st = [] → selectionOk st.
Proof.
  intros Hsel. unfold selectionOk. rewrite Hsel.
  split; [apply NoDup_nil_2|]. split; [|by left]. by intros x ?%elem_of_nil.
Qed.

Lemma step_selectionOk (st st' : State) (e : Event) :
  rectangular (grid st) → selectionOk st →
  match e with
  | Click block => id block ∈ liveIds (grid st)
  | _ => True
  end →
  step st e = Some st' → selectionOk st'.
Proof.
  intros Hrect Hok Hclick. destruct e as [block| | |]; simpl.
  - intros [= <-]. by apply click_selectionOk.
  - destruct (pending st) as [|[next m] rest]; [by intros [= <-]|].
    intros Hcb%successCallback_selectedIds. by apply empty_selectionOk.
  - unfold tick. destruct (_ && _); [|by intros [= <-]].
    destruct (timeLeft st <=? 1).
    + destruct (addNewRow st) as [st1|] eqn:Hadd; [|done]. simpl.
      intros [= <-]. pose proof (addNewRow_selectionOk st st1 Hrect Hok Hadd).
      by destruct st1.
    + intros [= <-]. by destruct st.
  - intros [= <-]. by destruct st.
Qed.

(** X13.  A held selection is always short of the target.  From a state
    whose grid has the configured shape and whose selection is in good
    standing (no id twice, only ids of live blocks, empty or summing to
    less than the target), every course of events in which the clicks are
    on blocks of the grid runs to its end and ends with the selection in
    good standing again. *)
Theorem run_keeps_selection_ok (st : State) (evs : list Event) :
  rectangular (grid st) →
  (0 < GRID_ROWS)%nat →
  selectionOk st →
  clicksLive st evs →
  ∃ st', run st evs = Some st' ∧ selectionOk st'.
Proof.
  intros Hrect Hpos. revert st Hrect.
  induction evs as [|e evs IH]; intros st Hrect Hok Hclicks; simpl.
  - by exists st.
  - destruct (step_rectangular st e Hrect Hpos) as (st1 & Hstep & Hr1).
    simpl in Hclicks. rewrite Hstep in Hclicks. destruct Hclicks as [Hhere Hrest].
    rewrite Hstep. simpl. apply IH; [done| |done].
    by apply (step_selectionOk st st1 e).
Qed.

Lemma find_own_block (b : Block) (bs : list Block) :
  NoDup (id <$> bs) → b ∈ bs →
  List.find (λ x, bool_decide (id x = id b)) bs = Some b.
Proof.
  induction bs as [|y bs IH]; [by intros _ ?%elem_of_nil|].
  rewrite fmap_cons. intros [Hy Hnd]%NoDup_cons [->|Hin]%elem_of_cons; simpl.
  - by rewrite bool_decide_eq_true_2.
  - rewrite bool_decide_eq_false_2; [by apply IH|].
    intros Heq. apply Hy. rewrite Heq. by apply list_elem_of_fmap_2.
Qed.

(** X14.  Lookup by id gives back the block: when the ids of the live
    blocks are pairwise distinct, the id of a live block resolves to that
    very block, and the block counts for its own value in a sum. *)
Theorem findBlock_own_block (g : Grid) (b : Block) :
  NoDup (liveIds g) →
  b ∈ liveBlocks g →
  findBlock g (id b) = Some b ∧
  valueOrZero (findBlock g (id b)) = value b.
Proof.
  intros Hnd Hin. rewrite findBlock_liveBlocks.
  rewrite (find_own_block b (liveBlocks g) Hnd Hin). split; [done|].
  simpl. destruct (Z.eqb_spec (value b) 0) as [->|]; done.
Qed.

(** ** Callbacks out of their time *)

Lemma initGame_completes (m : GameMode) (st0 : State) :
  (INITIAL_ROWS ≤ GRID_ROWS)%nat →
  ∃ st1, initGame m st0 = Some st1 ∧
         rectangular (grid st1) ∧
         score st1 = 0 ∧
         pending st1 = pending st0.
Proof.
  intros Hle. unfold initGame.
  replace (Z.of_nat GRID_ROWS - Z.of_nat INITIAL_ROWS)
    with (Z.of_nat (GRID_ROWS - INITIAL_ROWS)) by lia.
  destruct (fillRows_spec INITIAL_ROWS (GRID_ROWS - INITIAL_ROWS)
              (replicate GRID_ROWS (replicate GRID_COLS None)) (rng st0))
    as (g' & rng1 & -> & Hl & Hf & _).
  { apply Forall_replicate, length_replicate. }
  { rewrite length_replicate. lia. }
  simpl. destruct (drawTarget rng1) as [t rng2].
  eexists. split; [reflexivity|]. simpl.
  rewrite length_replicate in Hl. by repeat split.
Qed.

(** X15.  [initGame] does not cancel a success callback that is still
    pending: started while one is pending for the ids [next], the new
    game opens with score 0, the callback then runs in it and puts the
    score at [10 * next.length]. *)
Theorem pending_callback_survives_initGame
    (m : GameMode) (st0 : State)
    (next : list string) (mo : option GameMode)
    (rest : list (list string * option GameMode)) :
  (INITIAL_ROWS ≤ GRID_ROWS)%nat →
  (0 < GRID_ROWS)%nat →
  pending st0 = (next, mo) :: rest →
  ∃ st1 st2, initGame m st0 = Some st1 ∧
             score st1 = 0 ∧
             step st1 Timeout = Some st2 ∧
             score st2 = 10 * Z.of_nat (length next).
Proof.
  intros Hle Hpos Hpend.
  destruct (initGame_completes m st0 Hle) as (st1 & Hinit & Hrect & Hscore & Hp).
  destruct (step_rectangular st1 Timeout Hrect Hpos) as (st2 & Hstep & _).
  exists st1, st2. split; [done|]. split; [done|]. split; [done|].
  apply step_score in Hstep. rewrite Hp, Hpend in Hstep. lia.
Qed.

Lemma filter_none {A} (P : A → Prop) `{!∀ x, Decision (P x)} (l : list A) :
  (∀ x, x ∈ l → ¬ P x) → filter P l = [].
Proof.
  induction l as [|x l IH]; intros Hall; [done|].
  rewrite filter_cons_False by (apply Hall, list_elem_of_here).
  apply IH. intros y Hy. apply Hall. by apply list_elem_of_further.
Qed.

(** X16.  A success callback scheduled twice for the same ids scores
    twice.  In a mode without row growth, when two callbacks for the same
    ids are pending, the first clears the blocks; the second finds none
    of them, leaves the grid as the first made it, and still adds
    [10 * ids.length]: the score has grown by [20 * ids.length]. *)
Theorem repeated_callback_scores_again
    (st : State) (ids : list string) (mo : option GameMode)
    (rest : list (list string * option GameMode)) :
  rectangular (grid st) →
  mo ≠ Some classic →
  pending st = (ids, mo) :: (ids, mo) :: rest →
  ∃ st1 st2, step st Timeout = Some st1 ∧
             step st1 Timeout = Some st2 ∧
             clearedBy ids (grid st1) = 0%nat ∧
             grid st2 = grid st1 ∧
             score st1 = score st + 10 * Z.of_nat (length ids) ∧
             score st2 = score st + 20 * Z.of_nat (length ids).
Proof.
  intros Hrect Hmode Hpend.
  destruct (removeBlocks_updater_columns ids (grid st) Hrect)
    as (g1 & Hrun & Hr1 & _).
  pose proof (removeBlocks_updater_fixed ids (grid st) g1 Hrect Hrun) as Hfix.
  pose proof (removeBlocks_updater_members ids (grid st) g1 Hrect Hrun) as Hmem.
  simpl. rewrite Hpend.
  unfold successCallback, removeBlocks. simpl. rewrite Hrun. simpl.
  unfold generateTarget. simpl. destruct (drawTarget (rng st)) as [t r].
  destruct (drawTarget r) as [t2 r2] eqn:Hdraw.
  rewrite decide_False by done.
  eexists. eexists. split; [reflexivity|]. simpl.
  rewrite Hfix. simpl. rewrite Hdraw.
  rewrite decide_False by done. split; [reflexivity|]. simpl.
  split; [|split; [done|split; lia]].
  unfold clearedBy. rewrite filter_none; [done|].
  intros b Hb. by apply Hmem in Hb as [_ Hid].
Qed.

(** ** A click and a match, whole *)

(** X17.  A click by itself touches nothing but the selection and the
    pending callbacks: grid, score, target, flags, countdown, mode and
    generator are as before; and either no callback is added, or the
    updated selection sums to the target, the selection is emptied and
    one callback for the updated selection is appended. *)
Theorem handleBlockClick_frame (block : Block) (st : State) :
  let st' := handleBlockClick block st in
  let next := nextSelection (selectedIds st) (id block) in
  grid st' = grid st ∧ score st' = score st ∧ targetSum st' = targetSum st ∧
  isGameOver st' = isGameOver st ∧ isPaused st' = isPaused st ∧
  timeLeft st' = timeLeft st ∧ mode st' = mode st ∧ rng st' = rng st ∧
  (pending st' = pending st ∨
   (currentSum (grid st) next = targetSum st ∧
    selectedIds st' = [] ∧
    pending st' = pending st ++ [(next, mode st)])).
Proof.
  intros st' next. unfold st', handleBlockClick.
  destruct (isGameOver st || isPaused st).
  { repeat split; try done. by left. }
  unfold toggle. cbv zeta. fold next.
  sum_cases (grid st) (targetSum st) next; destruct st; simpl in *;
    repeat split; try done; (by left) || (by right).
Qed.

Lemma addNewRow_frame (st st' : State) :
  addNewRow st = Some st' →
  score st' = score st ∧ selectedIds st' = selectedIds st ∧
  targetSum st' = targetSum st ∧ pending st' = pending st.
Proof.
  unfold addNewRow.
  destruct (addNewRow_updater (grid st) (rng st)) as [[[g r] over]|]; [|done].
  intros [= <-]. by destruct over, st.
Qed.

(** X18.  A match from click to clearing.  In a running game with no
    callback pending, on a grid of the configured shape, take a click
    after which the selection names live blocks one by one and sums to
    the target.  The click and the callback it schedules then complete;
    the blocks of the selection, and only they, leave the grid; the score
    grows by 10 for each; the selection and the callback queue end empty;
    the target is drawn anew.  Outside classic mode the grid is what
    [removeBlocks] left.  In classic mode a row is inserted after the
    target is drawn: below a free top row the grid is shifted and ends
    with the new row, under an occupied one the game is over. *)
Theorem match_clears_the_selected_blocks (block : Block) (st : State) :
  rectangular (grid st) →
  (0 < GRID_ROWS)%nat →
  isGameOver st = false →
  isPaused st = false →
  pending st = [] →
  let next := nextSelection (selectedIds st) (id block) in
  namesBlocks next (grid st) →
  currentSum (grid st) next = targetSum st →
  ∃ st2 g1,
    run st [Click block; Timeout] = Some st2 ∧
    removeBlocks_updater next (grid st) = Some g1 ∧
    (∀ b, b ∈ liveBlocks g1 ↔ b ∈ liveBlocks (grid st) ∧ id b ∉ next) ∧
    (length (liveBlocks g1) + length next)%nat
    = length (liveBlocks (grid st)) ∧
    selectedIds st2 = [] ∧
    pending st2 = [] ∧
    score st2 = score st + 10 * Z.of_nat (length next) ∧
    targetSum st2 = (drawTarget (rng st)).1 ∧
    (mode st ≠ Some classic → grid st2 = g1) ∧
    (mode st = Some classic →
     ∀ top, g1 !! 0%nat = Some top →
            if existsb notNull top
            then grid st2 = g1 ∧ isGameOver st2 = true
            else grid st2
                 = drop 1 g1
                   ++ [Some <$> (createRow GRID_COLS
                                   (drawTarget (rng st)).2).1]).
Proof.
  intros Hrect Hpos Hover Hpause Hpend next Hnames Hsum.
  destruct (removeBlocks_updater_columns next (grid st) Hrect)
    as (g1 & Hrun & Hr1 & _).
  pose proof (removeBlocks_updater_members next (grid st) g1 Hrect Hrun) as Hmem.
  destruct (removeBlocks_takes_out next (grid st) Hrect) as (g2 & Hrun2 & _ & Hcount).
  rewrite Hrun in Hrun2. injection Hrun2 as <-.
  rewrite (clearedBy_namesBlocks _ _ Hnames) in Hcount.
  assert (handleBlockClick block st
          = setPending [(next, mode st)] (setSelectedIds [] st)) as Hclick.
  { unfold handleBlockClick, toggle. rewrite Hover, Hpause. cbv zeta. simpl.
    fold next. sum_cases (grid st) (targetSum st) next; try lia.
    by rewrite Hpend. }
  cbn [run step]. rewrite Hclick. simpl.
  unfold successCallback, removeBlocks. simpl. rewrite Hrun. simpl.
  unfold generateTarget. simpl.
  destruct (drawTarget (rng st)) as [t r] eqn:Hdraw. simpl.
  destruct (decide (mode st = Some classic)) as [Hc|Hc].
  - set (st3 := setTargetSum t _).
    assert (grid st3 = g1) as Hg3 by done.
    assert (rng st3 = r) as Hrng3 by done.
    destruct (addNewRow_rectangular st3) as (st2 & Hadd & _);
      [by rewrite Hg3|done|].
    rewrite Hadd. simpl.
    destruct (addNewRow_frame st3 st2 Hadd) as (Hs & Hsel & Ht & Hp).
    exists st2, g1. split; [done|]. split; [done|]. split; [done|].
    split; [done|]. split; [by rewrite Hsel|]. split; [by rewrite Hp|].
    split; [rewrite Hs; simpl; lia|]. split; [by rewrite Ht|].
    split; [done|]. intros _ top Htop.
    destruct (existsb notNull top) eqn:Hex.
    + rewrite (addNewRow_when_occupied st3 top) in Hadd by (by rewrite ?Hg3).
      injection Hadd as <-. done.
    + rewrite (addNewRow_shifted st3 top) in Hadd;
        [|rewrite Hg3; apply Hr1|by rewrite Hg3|done].
      injection Hadd as <-. simpl. done.
  - eexists. exists g1. split; [reflexivity|]. simpl.
    split; [done|]. split; [done|]. split; [done|]. split; [done|].
    split; [done|]. split; [lia|]. done.
Qed.

(** ** Deselection in a session *)

Section NonNegativeValues.

(** Block values are drawn from [BLOCK_VALUES]; none is negative. *)
Hypothesis drawn_nonneg : ∀ r : Rng, 0 ≤ (drawBlockValue r).1.

Lemma createRow_values (n : nat) (r : Rng) :
  Forall (λ b, 0 ≤ value b) (createRow n r).1.
Proof.
  revert r. induction n as [|n IH]; intros r; simpl; [constructor|].
  unfold createBlock. destruct (generateId r) as [i r1].
  pose proof (drawn_nonneg r1) as Hv.
  destruct (drawBlockValue r1) as [x r2]. specialize (IH r2).
  destruct (createRow n r2) as [bs r3]. simpl in *. by constructor.
Qed.

Lemma fresh_row_values (b : Block) (r : Rng) :
  Some b ∈ Some <$> (createRow GRID_COLS r).1 → 0 ≤ value b.
Proof.
  intros (b' & [= ->] & Hin)%list_elem_of_fmap.
  pose proof (createRow_values GRID_COLS r) as Hall.
  rewrite Forall_forall in Hall. by apply Hall.
Qed.

(** The rows of the grid that [initGame] fills are rows of the empty
    grid or rows that [createRow] makes. *)
Lemma fillRows_rows (n r0 : nat) (g : Grid) (rng0 : Rng) :
  Forall (λ row : Row, length row = GRID_COLS) g →
  (r0 + n ≤ length g)%nat →
  ∃ g' rng1, fillRows n (Z.of_nat r0) (g, rng0) = Some (g', rng1) ∧
             ∀ r row, g' !! r = Some row →
                      g !! r = Some row ∨
                      ∃ rg, row = Some <$> (createRow GRID_COLS rg).1.
Proof.
  revert r0 g rng0. induction n as [|n IH]; intros r0 g rng0 Hrows Hlen.
  - exists g, rng0. split; [done|]. intros r row Hr. by left.
  - simpl. destruct (lookup_lt_is_Some_2 g r0) as [row0 Hrow0]; [lia|].
    assert (length row0 = GRID_COLS) as Hw.
    { rewrite Forall_lookup in Hrows. by apply (Hrows r0). }
    rewrite (fillCells_spec GRID_COLS r0 0 g rng0 row0 Hrow0) by lia.
    rewrite take_0, drop_ge, app_nil_r by lia. simpl.
    replace (Z.of_nat r0 + 1) with (Z.of_nat (r0 + 1)) by lia.
    destruct (IH (r0 + 1)%nat
                 (<[r0 := Some <$> (createRow GRID_COLS rng0).1]> g)
                 (createRow GRID_COLS rng0).2)
      as (g' & rng1 & -> & Hfrom).
    { apply Forall_insert; [done|]. by rewrite length_fmap, createRow_length. }
    { rewrite length_insert. lia. }
    exists g', rng1. split; [done|]. intros r row Hr.
    destruct (Hfrom r row Hr) as [Hold|Hnew]; [|by right].
    destruct (decide (r = r0)) as [->|Hne].
    + rewrite list_lookup_insert_eq in Hold by lia.
      injection Hold as <-. right. by exists rng0.
    + rewrite list_lookup_insert_ne in Hold by done. by left.
Qed.

Lemma initGame_values (m : GameMode) (st0 st1 : State) :
  (INITIAL_ROWS ≤ GRID_ROWS)%nat →
  initGame m st0 = Some st1 → valuesNonNegative (grid st1).
Proof.
  intros Hle. unfold initGame.
  replace (Z.of_nat GRID_ROWS - Z.of_nat INITIAL_ROWS)
    with (Z.of_nat (GRID_ROWS - INITIAL_ROWS)) by lia.
  destruct (fillRows_rows INITIAL_ROWS (GRID_ROWS - INITIAL_ROWS)
              (replicate GRID_ROWS (replicate GRID_COLS None)) (rng st0))
    as (g' & rng1 & -> & Hfrom).
  { apply Forall_replicate, length_replicate. }
  { rewrite length_replicate. lia. }
  simpl. destruct (drawTarget rng1) as [t rng2]. intros [= <-]. simpl.
  intros b Hb. unfold liveBlocks, flat in Hb.
  apply elem_of_blocksOf, elem_of_concat in Hb as (row & Hcell & Hrow).
  apply list_elem_of_lookup in Hrow as [r Hr].
  destruct (Hfrom r row Hr) as [Hold|[rg ->]].
  - apply lookup_replicate_1 in Hold as [-> _].
    by apply elem_of_replicate_inv in Hcell.
  - by apply (fresh_row_values b rg).
Qed.

Lemma addNewRow_values (st st' : State) :
  length (grid st) = GRID_ROWS → valuesNonNegative (grid st) →
  addNewRow st = Some st' → valuesNonNegative (grid st').
Proof.
  intros Hlen Hval.
  destruct (grid st !! 0%nat) as [top|] eqn:Htop.
  2:{ unfold addNewRow, addNewRow_updater. by rewrite Htop. }
  destruct (existsb notNull top) eqn:Hex.
  - rewrite (addNewRow_when_occupied st top Htop Hex). intros [= <-].
    by destruct st.
  - rewrite (addNewRow_shifted st top Hlen Htop Hex). intros [= <-].
    apply existsb_notNull_false in Hex.
    destruct (addNewRow_shifted_lookup (grid st) top
                (createRow GRID_COLS (rng st)).1 Htop Hex) as (Hlive & _).
    destruct st as [? g ? ? ? ? ? ? r ?]. simpl in *.
    intros b Hb. rewrite Hlive in Hb. apply elem_of_app in Hb as [Hb|Hb].
    + by apply Hval.
    + pose proof (createRow_values GRID_COLS r) as Hall.
      rewrite Forall_forall in Hall. by apply Hall.
Qed.

Lemma step_values (st st' : State) (e : Event) :
  rectangular (grid st) → valuesNonNegative (grid st) →
  step st e = Some st' → valuesNonNegative (grid st').
Proof.
  intros Hrect Hval. destruct e as [block| | |]; simpl.
  - intros [= <-]. unfold handleBlockClick.
    destruct (isGameOver st || isPaused st); [done|].
    destruct (toggle _ _ _ _) as [sel []]; by destruct st.
  - destruct (pending st) as [|[next m] rest]; [by intros [= <-]|].
    unfold successCallback, removeBlocks. simpl.
    destruct (removeBlocks_updater_columns next (grid st) Hrect)
      as (g1 & Hrun & Hr1 & _).
    pose proof (removeBlocks_updater_members next (grid st) g1 Hrect Hrun)
      as Hmem.
    rewrite Hrun. simpl. unfold generateTarget. simpl.
    destruct (drawTarget (rng st)) as [t r].
    assert (valuesNonNegative g1) as Hval1.
    { intros b Hb. apply Hval. by apply Hmem in Hb as [Hb _]. }
    case_decide.
    + apply addNewRow_values; [apply Hr1|done].
    + by intros [= <-].
  - unfold tick. destruct (_ && _); [|by intros [= <-]].
    destruct (timeLeft st <=? 1).
    + destruct (addNewRow st) as [st1|] eqn:Hadd; [|done]. simpl.
      intros [= <-].
      pose proof (addNewRow_values st st1 (proj1 Hrect) Hval Hadd).
      by destruct st1.
    + intros [= <-]. by destruct st.
  - intros [= <-]. by destruct st.
Qed.

(** What every state of a session satisfies. *)
Lemma run_invariants (st st' : State) (evs : list Event) :
  (0 < GRID_ROWS)%nat →
  rectangular (grid st) → selectionOk st → valuesNonNegative (grid st) →
  clicksLive st evs →
  run st evs = Some st' →
  rectangular (grid st') ∧ selectionOk st' ∧ valuesNonNegative (grid st').
Proof.
  intros Hpos. revert st.
  induction evs as [|e evs IH]; intros st Hrect Hok Hval Hclicks; simpl.
  - by intros [= <-].
  - destruct (step_rectangular st e Hrect Hpos) as (st1 & Hstep & Hr1).
    simpl in Hclicks. rewrite Hstep in Hclicks.
    destruct Hclicks as [Hhere Hrest]. rewrite Hstep. simpl.
    apply IH; [done| |by apply (step_values st st1 e)|done].
    by apply (step_selectionOk st st1 e).
Qed.

(** C1.  In every session a deselection ends in CONTINUE with the
    reduced selection.  Take a game started by [initGame] (with no more
    initial rows than rows, and block values that are not negative), any
    course of clicks on blocks of the grid, callbacks, ticks and pauses
    after it, and, in the state so reached, a block whose id is selected.
    The updater then removes that id and its sum check takes the CONTINUE
    branch: the result is the selection without the id, neither
    EXACT_MATCH nor EXCEEDED; and the click, when the game is neither
    over nor paused, changes the selection to the reduced one and
    nothing else, so no callback is scheduled. *)
Theorem deselect_continues_in_every_session
    (m : GameMode) (st0 st1 st : State) (evs : list Event) (block : Block) :
  (INITIAL_ROWS ≤ GRID_ROWS)%nat →
  (0 < GRID_ROWS)%nat →
  initGame m st0 = Some st1 →
  clicksLive st1 evs →
  run st1 evs = Some st →
  id block ∈ selectedIds st →
  toggle (grid st) (targetSum st) (selectedIds st) (id block)
  = (filter (λ x, x ≠ id block) (selectedIds st), CONTINUE) ∧
  (isGameOver st = false → isPaused st = false →
   handleBlockClick block st
   = setSelectedIds (filter (λ x, x ≠ id block) (selectedIds st)) st).
Proof.
  intros Hle Hpos Hinit Hclicks Hrun Hin.
  destruct (initGame_completes m st0 Hle) as (st1' & Hinit' & Hrect1 & _).
  rewrite Hinit in Hinit'. injection Hinit' as <-.
  assert (selectionOk st1) as Hok1.
  { apply empty_selectionOk. revert Hinit. unfold initGame.
    destruct (fillRows _ _ _) as [s|]; [|done]. simpl.
    destruct (drawTarget s.2) as [t r]. by intros [= <-]. }
  pose proof (initGame_values m st0 st1 Hle Hinit) as Hval1.
  destruct (run_invariants st1 st evs Hpos Hrect1 Hok1 Hval1 Hclicks Hrun)
    as (_ & (_ & _ & Hsum) & Hval).
  assert (currentSum (grid st) (selectedIds st) < targetSum st) as Hlt.
  { destruct Hsum as [Hnil|Hlt]; [|done].
    rewrite Hnil in Hin. by apply elem_of_nil in Hin. }
  destruct (toggle_off_continues_below_target
              (grid st) (targetSum st) (selectedIds st) (id block) Hin)
    as (_ & _ & _ & Himp).
  pose proof (Himp Hval Hlt) as Htoggle.
  split; [done|]. intros Hover Hpause.
  unfold handleBlockClick. by rewrite Hover, Hpause, Htoggle.
Qed.

End NonNegativeValues.

(** ** The score when a match is repeated *)

Lemma blocksCleared_count (next : list string) (g : Grid) :
  rectangular g → blocksCleared next g = clearedBy next g.
Proof.
  intros Hrect. unfold blocksCleared.
  destruct (removeBlocks_takes_out next g Hrect) as (g' & -> & _ & Hcount).
  lia.
Qed.

End Properties.

(** * The properties at work on the small configuration *)

Lemma addNewRow_occupied_top_is_game_over_witness :
  ∃ st', @addNewRow Demo.config Demo.random
           (Demo.playing Demo.fullGrid 9 ["w"]) = Some st' ∧
         isGameOver st' = true ∧
         grid st' = Demo.fullGrid ∧
         rng st' = 6%nat ∧
         score st' = 0 ∧
         targetSum st' = 9 ∧
         selectedIds st' = ["w"].
Proof.
  apply (@addNewRow_occupied_top_is_game_over Demo.config Demo.random
           (Demo.playing Demo.fullGrid 9 ["w"])
           [Demo.blk "t" 1; None; None; None] (Demo.blk "t" 1)).
  - reflexivity.
  - apply list_elem_of_here.
  - discriminate.
Defined.

Lemma addNewRow_free_top_shifts_and_appends_witness :
  ∃ st', @addNewRow Demo.config Demo.random
           (Demo.playing Demo.floorGrid 9 []) = Some st' ∧
         isGameOver st' = false ∧
         length (grid st') = 4%nat ∧
         (∀ r, (r + 1 < 4)%nat →
               grid st' !! r = Demo.floorGrid !! (r + 1)%nat) ∧
         grid st' !! 3%nat
           = Some [Demo.blk "g" 8; Demo.blk "i" 1;
                   Demo.blk "k" 3; Demo.blk "m" 5] ∧
         length (@createRow Demo.random 4 6%nat).1 = 4%nat.
Proof.
  apply (@addNewRow_free_top_shifts_and_appends Demo.config Demo.random
           (Demo.playing Demo.floorGrid 9 []) Demo.emptyRow).
  - reflexivity.
  - reflexivity.
  - repeat constructor.
Defined.

Lemma addNewRow_resets_countdown_witness :
  ∃ st', @addNewRow Demo.config Demo.random
           (@setTimeLeft Demo.random 3 (Demo.playing Demo.fullGrid 9 []))
         = Some st' ∧
         timeLeft st' = 10 ∧
         (true = true → isGameOver st' = true ∧ grid st' = Demo.fullGrid).
Proof.
  apply (@addNewRow_resets_countdown Demo.config Demo.random
           (@setTimeLeft Demo.random 3 (Demo.playing Demo.fullGrid 9 []))
           [Demo.blk "t" 1; None; None; None]).
  - reflexivity.
  - reflexivity.
Defined.

Lemma toggle_off_continues_below_target_witness :
  (toggle Demo.floorGrid 9 ["p"; "q"] "q" = (["p"], CONTINUE)
     ↔ currentSum Demo.floorGrid ["p"] < 9) ∧
  toggle Demo.floorGrid 9 ["p"; "q"] "q" = (["p"], CONTINUE) ∧
  toggle Demo.floorGrid 2 ["p"; "q"] "q" = ([], EXACT_MATCH) ∧
  toggle Demo.floorGrid 1 ["p"; "q"] "q" = ([], EXCEEDED).
Proof.
  assert ("q" ∈ ["p"; "q"]) as Hin.
  { apply list_elem_of_further, list_elem_of_here. }
  destruct (toggle_off_continues_below_target
              Demo.floorGrid 9 ["p"; "q"] "q" Hin) as (Hiff & _ & _ & Himp).
  destruct (toggle_off_continues_below_target
              Demo.floorGrid 2 ["p"; "q"] "q" Hin) as (_ & Heq & _ & _).
  destruct (toggle_off_continues_below_target
              Demo.floorGrid 1 ["p"; "q"] "q" Hin) as (_ & _ & Hgt & _).
  split; [exact Hiff|]. split; [|split].
  - apply Himp.
    + intros b Hb. vm_compute in Hb.
      repeat (apply elem_of_cons in Hb as [->|Hb]; [simpl; lia|]).
      by apply elem_of_nil in Hb.
    + reflexivity.
  - apply Heq. reflexivity.
  - apply Hgt. reflexivity.
Defined.

Lemma toggle_append_classifies_witness :
  currentSum Demo.floorGrid ["p"; "q"] = 2 + 3 ∧
  toggle Demo.floorGrid 5 ["p"] "q" = ([], EXACT_MATCH) ∧
  toggle Demo.floorGrid 4 ["p"] "q" = ([], EXCEEDED) ∧
  toggle Demo.floorGrid 6 ["p"] "q" = (["p"; "q"], CONTINUE).
Proof.
  assert ("q" ∉ ["p"]) as Hni.
  { intros H%list_elem_of_singleton. discriminate. }
  destruct (toggle_append_classifies Demo.floorGrid 5 ["p"] "q" Hni)
    as (Hs & Heq & _ & _).
  destruct (toggle_append_classifies Demo.floorGrid 4 ["p"] "q" Hni)
    as (_ & _ & Hgt & _).
  destruct (toggle_append_classifies Demo.floorGrid 6 ["p"] "q" Hni)
    as (_ & _ & _ & Hlt).
  split; [exact Hs|]. split; [by apply Heq|]. split; [by apply Hgt|].
  by apply Hlt.
Defined.

(** C6 as stated fails: with nothing selected and the target at 5, a
    click on the block worth 6 ends in EXCEEDED, and so does the second
    click; and after a click that completes a match the second click
    selects the block alone. *)
Lemma toggle_twice_can_exceed :
  toggle Demo.floorGrid 5 [] "r" = ([], EXCEEDED) ∧
  toggle Demo.floorGrid 5 (toggle Demo.floorGrid 5 [] "r").1 "r"
    = ([], EXCEEDED) ∧
  toggle Demo.floorGrid 5 (toggle Demo.floorGrid 5 [] "r").1 "r"
    ≠ ([], CONTINUE) ∧
  toggle Demo.floorGrid 5 (toggle Demo.floorGrid 5 ["p"] "q").1 "q"
    = (["q"], CONTINUE).
Proof. repeat split; (reflexivity || discriminate). Qed.

Lemma toggle_twice_restores_witness :
  ((toggle Demo.floorGrid 9 ["q"; "p"] "q").2 = CONTINUE →
   ∃ back, toggle Demo.floorGrid 9
             (toggle Demo.floorGrid 9 ["q"; "p"] "q").1 "q"
           = (back, CONTINUE) ∧
           back ≡ₚ ["q"; "p"] ∧
           ("q" ∉ ["q"; "p"] → back = ["q"; "p"]) ∧
           ("q" ∈ ["q"; "p"] →
            back = filter (λ x, x ≠ "q") ["q"; "p"] ++ ["q"])) ∧
  ((toggle Demo.floorGrid 9 ["q"; "p"] "q").2 ≠ CONTINUE →
   (toggle Demo.floorGrid 9 ["q"; "p"] "q").1 = [] ∧
   toggle Demo.floorGrid 9 (toggle Demo.floorGrid 9 ["q"; "p"] "q").1 "q"
   = toggle Demo.floorGrid 9 [] "q").
Proof.
  apply (toggle_twice_restores Demo.floorGrid 9 ["q"; "p"] "q").
  - apply NoDup_cons. split.
    + intros H%list_elem_of_singleton. discriminate.
    + apply NoDup_singleton.
  - reflexivity.
Defined.

(** The two sides of the amended C6 on the demonstration grid: selected
    ["q"; "p"] comes back as ["p"; "q"]; a click that completes a match
    leaves nothing selected. *)
Example toggle_twice_examples :
  toggle Demo.floorGrid 9 (toggle Demo.floorGrid 9 ["q"; "p"] "q").1 "q"
  = (["p"; "q"], CONTINUE) ∧
  toggle Demo.floorGrid 5 ["p"] "q" = ([], EXACT_MATCH).
Proof. split; reflexivity. Qed.

Lemma exceeded_only_resets_selection_witness :
  let st := Demo.playing Demo.floorGrid 5 ["p"] in
  let r := mkBlock "r" 6 false in
  (toggle (grid st) (targetSum st) (selectedIds st) (id r)).2 = EXCEEDED ∧
  handleBlockClick r st = setSelectedIds [] st ∧
  selectedIds (handleBlockClick r st) = [] ∧
  grid (handleBlockClick r st) = grid st ∧
  score (handleBlockClick r st) = score st ∧
  targetSum (handleBlockClick r st) = targetSum st ∧
  pending (handleBlockClick r st) = pending st.
Proof.
  intros st r.
  apply (@exceeded_only_resets_selection Demo.random r st); reflexivity.
Defined.

Lemma unknown_id_contributes_zero_witness :
  findBlock Demo.floorGrid "z" = None ∧
  valueOrZero (findBlock Demo.floorGrid "z") = 0 ∧
  (∀ ids1 ids2,
     currentSum Demo.floorGrid (ids1 ++ "z" :: ids2)
     = currentSum Demo.floorGrid (ids1 ++ ids2)) ∧
  (∀ (st : @State Demo.random) (block : Block),
     grid st = Demo.floorGrid →
     "z" ∈ nextSelection (selectedIds st) (id block) →
     ∃ st', @step Demo.config Demo.random st (Click block) = Some st').
Proof.
  apply (@unknown_id_contributes_zero Demo.config Demo.random
           Demo.floorGrid "z").
  intros H. vm_compute in H.
  repeat (apply elem_of_cons in H as [H|H]; [discriminate|]).
  by apply elem_of_nil in H.
Defined.

Lemma gravity_settles_each_column_witness :
  ∃ g', @applyGravity Demo.config Demo.looseGrid = Some g' ∧
        @rectangular Demo.config g' ∧
        ∀ c, (c < 4)%nat →
             blocksOf (column c g') = blocksOf (column c Demo.looseGrid) ∧
             column c g'
             = replicate (4 - length (blocksOf (column c Demo.looseGrid)))%nat
                 None
               ++ (Some <$> blocksOf (column c Demo.looseGrid)).
Proof.
  apply (@gravity_settles_each_column Demo.config Demo.looseGrid).
  split; [reflexivity|]. repeat constructor.
Defined.

(** The run of the gravity pass on the demonstration grid. *)
Example applyGravity_looseGrid :
  @applyGravity Demo.config Demo.looseGrid
  = Some [ [None;           None;           None; None];
           [None;           None;           None; None];
           [Demo.blk "a" 1; Demo.blk "b" 2; None; None];
           [Demo.blk "c" 3; Demo.blk "d" 4; None; Demo.blk "e" 5] ].
Proof. reflexivity. Qed.

Lemma score_is_ten_per_cleared_block_witness :
  score Demo.opened = 0 ∧
  score Demo.closed
    = 10 * Z.of_nat (sum_list (@clearedLog Demo.config Demo.random
                                 Demo.opened Demo.session)) ∧
  (∀ evs1 evs2 evs3 earlier later,
     Demo.session = evs1 ++ evs2 ++ evs3 →
     @run Demo.config Demo.random Demo.opened evs1 = Some earlier →
     @run Demo.config Demo.random earlier evs2 = Some later →
     0 ≤ score earlier ≤ score later) ∧
  (∀ (s s' : @State Demo.random) next mo rest,
     pending s = (next, mo) :: rest →
     namesBlocks next (grid s) →
     @step Demo.config Demo.random s Timeout = Some s' →
     score s' = score s + 10 * Z.of_nat (clearedBy next (grid s))).
Proof.
  apply (@score_is_ten_per_cleared_block Demo.config Demo.random
           classic Demo.mounted Demo.opened Demo.closed Demo.session).
  - reflexivity.
  - reflexivity.
  - apply (bool_decide_unpack _). vm_compute. exact I.
Defined.

(** The session of the witness, evaluated: two blocks cleared twice,
    40 points. *)
Example session_score :
  @clearedLog Demo.config Demo.random Demo.opened Demo.session = [2; 2]%nat ∧
  score Demo.closed = 40.
Proof. split; reflexivity. Qed.

(** ** More of the code at work *)

Lemma applyGravity_twice_witness :
  ∃ g', @applyGravity Demo.config Demo.looseGrid = Some g' ∧
        @applyGravity Demo.config g' = Some g'.
Proof.
  apply (@applyGravity_twice Demo.config Demo.looseGrid).
  split; [reflexivity|]. repeat constructor.
Defined.

Lemma removeBlocks_removes_exactly_witness :
  ∃ g', @removeBlocks_updater Demo.config ["a"; "d"] Demo.looseGrid = Some g' ∧
        @rectangular Demo.config g' ∧
        (∀ b, b ∈ liveBlocks g'
              ↔ b ∈ liveBlocks Demo.looseGrid ∧ id b ∉ ["a"; "d"]) ∧
        (∀ c, (c < 4)%nat →
              blocksOf (column c g')
              = filter (λ b, id b ∉ ["a"; "d"])
                  (blocksOf (column c Demo.looseGrid))) ∧
        (length (liveBlocks g') + clearedBy ["a"; "d"] Demo.looseGrid)%nat
        = length (liveBlocks Demo.looseGrid).
Proof.
  apply (@removeBlocks_removes_exactly Demo.config ["a"; "d"] Demo.looseGrid).
  split; [reflexivity|]. repeat constructor.
Defined.

Lemma removeBlocks_twice_witness :
  ∃ g', @removeBlocks_updater Demo.config ["a"; "d"] Demo.looseGrid = Some g' ∧
        @removeBlocks_updater Demo.config ["a"; "d"] g' = Some g'.
Proof.
  apply (@removeBlocks_twice Demo.config ["a"; "d"] Demo.looseGrid).
  split; [reflexivity|]. repeat constructor.
Defined.

Lemma removeBlocks_absent_ids_witness :
  @removeBlocks_updater Demo.config ["z"] Demo.floorGrid
  = @applyGravity Demo.config Demo.floorGrid ∧
  @removeBlocks_updater Demo.config ["z"] Demo.floorGrid = Some Demo.floorGrid.
Proof.
  destruct (@removeBlocks_absent_ids Demo.config ["z"] Demo.floorGrid)
    as [Hsame Hfixed].
  - intros i ->%list_elem_of_singleton.
    apply (bool_decide_unpack _). vm_compute. exact I.
  - split; [exact Hsame|]. apply Hfixed. reflexivity.
Defined.

Lemma addNewRow_keeps_blocks_and_sums_witness :
  let st := Demo.playing Demo.floorGrid 9 ["p"] in
  ∃ st', @addNewRow Demo.config Demo.random st = Some st' ∧
         liveBlocks (grid st')
         = liveBlocks (grid st) ++ (@createRow Demo.random 4 (rng st)).1 ∧
         (∀ i, i ∈ liveIds (grid st) →
               findBlock (grid st') i = findBlock (grid st) i) ∧
         (∀ sel, sel ⊆ liveIds (grid st) →
                 currentSum (grid st') sel = currentSum (grid st) sel) ∧
         selectedIds st' = selectedIds st ∧
         targetSum st' = targetSum st ∧
         score st' = score st ∧
         isGameOver st' = isGameOver st.
Proof.
  intros st.
  apply (@addNewRow_keeps_blocks_and_sums Demo.config Demo.random
           st Demo.emptyRow).
  - reflexivity.
  - reflexivity.
  - repeat constructor.
Defined.

Lemma addNewRow_twice_on_high_pile_witness :
  let st := Demo.playing Demo.highGrid 9 [] in
  ∃ st1 st2, @addNewRow Demo.config Demo.random st = Some st1 ∧
             isGameOver st1 = isGameOver st ∧
             grid st1 !! 0%nat = Some [Demo.blk "u" 2; None; None; None] ∧
             @addNewRow Demo.config Demo.random st1 = Some st2 ∧
             isGameOver st2 = true ∧
             grid st2 = grid st1.
Proof.
  intros st.
  apply (@addNewRow_twice_on_high_pile Demo.config Demo.random
           st Demo.emptyRow [Demo.blk "u" 2; None; None; None]
           (Demo.blk "u" 2)).
  - reflexivity.
  - reflexivity.
  - repeat constructor.
  - reflexivity.
  - apply list_elem_of_here.
  - discriminate.
Defined.

Lemma initGame_seeds_bottom_rows_witness :
  ∃ st1, @initGame Demo.config Demo.random classic Demo.mounted = Some st1 ∧
         @rectangular Demo.config (grid st1) ∧
         (∀ r, (r < 4 - 2)%nat →
               grid st1 !! r = Some (replicate 4 None)) ∧
         (∀ r, (4 - 2 ≤ r < 4)%nat →
               ∃ bs, grid st1 !! r = Some (Some <$> bs) ∧ length bs = 4%nat) ∧
         mode st1 = Some classic ∧
         score st1 = 0 ∧
         isGameOver st1 = false ∧
         isPaused st1 = false ∧
         selectedIds st1 = [] ∧
         timeLeft st1 = 10 ∧
         pending st1 = pending Demo.mounted.
Proof.
  apply (@initGame_seeds_bottom_rows Demo.config Demo.random
           classic Demo.mounted).
  simpl. lia.
Defined.

Lemma initGame_too_many_initial_rows_witness :
  @initGame Demo.tallConfig Demo.random classic
    (@mount Demo.tallConfig Demo.random 0%nat) = None.
Proof.
  apply (@initGame_too_many_initial_rows Demo.tallConfig Demo.random).
  - simpl. lia.
  - simpl. lia.
Defined.

Lemma run_keeps_shape_witness :
  ∃ st', @run Demo.config Demo.random Demo.opened Demo.session = Some st' ∧
         @rectangular Demo.config (grid st').
Proof.
  apply (@run_keeps_shape Demo.config Demo.random Demo.opened Demo.session).
  - split; [reflexivity|]. repeat constructor.
  - simpl. lia.
Defined.

Lemma game_over_is_sticky_witness : isGameOver Demo.afterOver = true.
Proof.
  apply (@game_over_is_sticky Demo.config Demo.random Demo.over Demo.afterOver
           [Click (mkBlock "x" 5 false); Tick; PauseToggle; Timeout]).
  - reflexivity.
  - reflexivity.
Defined.

Lemma over_or_paused_ignores_input_witness :
  let st := @setIsPaused Demo.random true
              (Demo.timed Demo.floorGrid 5 1 ["p"] []) in
  @run Demo.config Demo.random st
    [Click (mkBlock "q" 3 false); Tick; Tick; Click (mkBlock "p" 2 false)]
  = Some st.
Proof.
  intros st.
  apply (@over_or_paused_ignores_input Demo.config Demo.random st).
  - reflexivity.
  - repeat constructor.
Defined.

Lemma countdown_inserts_row_after_t_ticks_witness :
  let st := Demo.timed Demo.floorGrid 9 3 ["p"] [] in
  (∀ k, Z.of_nat k < timeLeft st →
        @run Demo.config Demo.random st (replicate k Tick)
        = Some (setTimeLeft (timeLeft st - Z.of_nat k) st)) ∧
  @run Demo.config Demo.random st (replicate (Z.to_nat (timeLeft st)) Tick)
  = @addNewRow Demo.config Demo.random st.
Proof.
  intros st.
  apply (@countdown_inserts_row_after_t_ticks Demo.config Demo.random st).
  - reflexivity.
  - reflexivity.
  - reflexivity.
  - simpl. lia.
Defined.

Lemma run_keeps_selection_ok_witness :
  ∃ st', @run Demo.config Demo.random Demo.opened Demo.session = Some st' ∧
         selectionOk st'.
Proof.
  apply (@run_keeps_selection_ok Demo.config Demo.random
           Demo.opened Demo.session).
  - split; [reflexivity|]. repeat constructor.
  - simpl. lia.
  - split; [apply NoDup_nil_2|]. split; [|by left].
    intros x Hx. by apply elem_of_nil in Hx.
  - apply (bool_decide_unpack _). vm_compute. exact I.
Defined.

Lemma findBlock_own_block_witness :
  findBlock Demo.floorGrid "q" = Some (mkBlock "q" 3 false) ∧
  valueOrZero (findBlock Demo.floorGrid "q") = 3.
Proof.
  apply (findBlock_own_block Demo.floorGrid (mkBlock "q" 3 false)).
  - apply (bool_decide_unpack _). vm_compute. exact I.
  - apply (bool_decide_unpack _). vm_compute. exact I.
Defined.

Lemma pending_callback_survives_initGame_witness :
  let st0 := @setPending Demo.random [(["p"; "q"], Some time)] Demo.mounted in
  ∃ st1 st2, @initGame Demo.config Demo.random time st0 = Some st1 ∧
             score st1 = 0 ∧
             @step Demo.config Demo.random st1 Timeout = Some st2 ∧
             score st2 = 10 * Z.of_nat (length ["p"; "q"]).
Proof.
  intros st0.
  apply (@pending_callback_survives_initGame Demo.config Demo.random
           time st0 ["p"; "q"] (Some time) []).
  - simpl. lia.
  - simpl. lia.
  - reflexivity.
Defined.

Lemma repeated_callback_scores_again_witness :
  let st := Demo.timed Demo.floorGrid 5 7 []
              [(["p"; "q"], Some time); (["p"; "q"], Some time)] in
  ∃ st1 st2, @step Demo.config Demo.random st Timeout = Some st1 ∧
             @step Demo.config Demo.random st1 Timeout = Some st2 ∧
             clearedBy ["p"; "q"] (grid st1) = 0%nat ∧
             grid st2 = grid st1 ∧
             score st1 = score st + 10 * Z.of_nat (length ["p"; "q"]) ∧
             score st2 = score st + 20 * Z.of_nat (length ["p"; "q"]).
Proof.
  intros st.
  apply (@repeated_callback_scores_again Demo.config Demo.random
           st ["p"; "q"] (Some time) []).
  - split; [reflexivity|]. repeat constructor.
  - discriminate.
  - reflexivity.
Defined.

Lemma match_clears_the_selected_blocks_witness :
  let st := Demo.playing Demo.floorGrid 5 ["p"] in
  let q := mkBlock "q" 3 false in
  let next := ["p"; "q"] in
  ∃ st2 g1,
    @run Demo.config Demo.random st [Click q; Timeout] = Some st2 ∧
    @removeBlocks_updater Demo.config next (grid st) = Some g1 ∧
    (∀ b, b ∈ liveBlocks g1 ↔ b ∈ liveBlocks (grid st) ∧ id b ∉ next) ∧
    (length (liveBlocks g1) + length next)%nat
    = length (liveBlocks (grid st)) ∧
    selectedIds st2 = [] ∧
    pending st2 = [] ∧
    score st2 = score st + 10 * Z.of_nat (length next) ∧
    targetSum st2 = (@drawTarget Demo.random (rng st)).1 ∧
    (mode st ≠ Some classic → grid st2 = g1) ∧
    (mode st = Some classic →
     ∀ top, g1 !! 0%nat = Some top →
            if existsb notNull top
            then grid st2 = g1 ∧ isGameOver st2 = true
            else grid st2
                 = drop 1 g1
                   ++ [Some <$> (@createRow Demo.random 4
                                   (@drawTarget Demo.random (rng st)).2).1]).
Proof.
  intros st q next.
  apply (@match_clears_the_selected_blocks Demo.config Demo.random q st).
  - split; [reflexivity|]. repeat constructor.
  - simpl. lia.
  - reflexivity.
  - reflexivity.
  - reflexivity.
  - apply (bool_decide_unpack _). vm_compute. exact I.
  - reflexivity.
Defined.

Lemma deselect_continues_in_every_session_witness :
  toggle (grid Demo.holding) (targetSum Demo.holding)
    (selectedIds Demo.holding) "a"
  = (filter (λ x, x ≠ "a") (selectedIds Demo.holding), CONTINUE) ∧
  (isGameOver Demo.holding = false → isPaused Demo.holding = false →
   handleBlockClick (mkBlock "a" 2 false) Demo.holding
   = setSelectedIds (filter (λ x, x ≠ "a") (selectedIds Demo.holding))
       Demo.holding).
Proof.
  apply (@deselect_continues_in_every_session Demo.config Demo.random
           (λ r, ltac:(simpl; lia))
           classic Demo.mounted Demo.opened Demo.holding
           [Click (mkBlock "a" 2 false)] (mkBlock "a" 2 false)).
  - simpl. lia.
  - simpl. lia.
  - reflexivity.
  - apply (bool_decide_unpack _). vm_compute. exact I.
  - reflexivity.
  - apply list_elem_of_here.
Defined.

(** The state of the witness: "a" is the selection, and the click on it
    leaves nothing selected, in CONTINUE. *)
Example deselect_in_demo :
  selectedIds Demo.holding = ["a"] ∧
  toggle (grid Demo.holding) (targetSum Demo.holding)
    (selectedIds Demo.holding) "a" = ([], CONTINUE).
Proof. split; reflexivity. Qed.

(** C8 (defect).  The score is not always 10 per block cleared.  In the
    game opened on the small configuration, "a" and "g" make the target;
    clicked, and clicked again before the first success callback has run,
    they schedule that callback twice.  The first callback takes the two
    blocks out of the grid, the second takes out none, and each adds 20:
    after two successful matches that cleared 2 and 0 blocks the score is
    40, not [10 * (2 + 0)].  Every click of that session is on a block
    of the grid. *)
Theorem repeated_match_scores_blocks_not_cleared :
  score Demo.opened = 0 ∧
  @clicksLive Demo.config Demo.random Demo.opened Demo.hastySession ∧
  @run Demo.config Demo.random Demo.opened Demo.hastySession
  = Some Demo.afterHaste ∧
  @clearedCounts Demo.config Demo.random Demo.opened Demo.hastySession
  = [2; 0]%nat ∧
  score Demo.afterHaste = 40 ∧
  score Demo.afterHaste
  ≠ 10 * Z.of_nat
           (sum_list (@clearedCounts Demo.config Demo.random
                        Demo.opened Demo.hastySession)).
Proof.
  split; [reflexivity|]. split.
  { apply (bool_decide_unpack _). vm_compute. exact I. }
  split; [reflexivity|]. split; [reflexivity|]. split; [reflexivity|].
  vm_compute. discriminate.
Qed.
